(** * Thermal conductivity of a driven ball-and-spring network

    A shallow embedding of [ballnspring/conductivity.py] and the proofs of
    its specification.

    Scalars.  The program computes with complex floating-point numbers.
    The embedding takes the scalars from an arbitrary field [F] (exact
    arithmetic); a quotient whose denominator is zero is the only source of
    a non-finite number (inf or nan), and is represented by [None] in
    [option F].

    Arrays.  A one-dimensional numpy array is a [seq F], a two-dimensional
    one the [seq] of its rows; the arrays of the program are rectangular,
    and an array without rows is taken to have no columns.  Atom and mode
    indices are natural numbers (the negative indices of Python are not
    used).  Driver groups are lists of such indices; numpy turns them into
    integer arrays when no group is an empty list beside a non-empty one
    (an empty list is a float64 array and promotes the stack, and a float
    index raises [IndexError]), when the groups that [np.array] receives
    have one length (it raises [ValueError] on others from numpy 1.24 on)
    and when the indices computed from them fit its integers.  The
    theorems that depend on the driver groups state these conditions
    ([index_groups], [index_array], [machine_int]); the allocation of an
    array never fails.

    Errors.  A Python exception is a value [Raise e] of the type [result].
    Index errors, the shape check of [np.concatenate], the division
    [len(k)//len(m)] and the failures of the two LAPACK routines are
    modelled.  Element-wise operations, [np.dot] and slice assignment are
    modelled on operands of conforming shapes, the only case the theorems
    below consider (numpy would broadcast or raise [ValueError] on others).

    The routines [scipy.linalg.eig] and [np.linalg.solve] are parameters
    of the development. *)

From HB Require Import structures.
From mathcomp Require Import ssreflect ssrfun ssrbool eqtype ssrnat div seq.
From mathcomp Require Import bigop ssralg ssrnum ssrint rat.

Set Implicit Arguments.
Unset Strict Implicit.
Unset Printing Implicit Defensive.

Import GRing.Theory.
Local Open Scope ring_scope.

(** ** Exceptions and the error monad *)

Inductive exn : Type :=
  | ZeroDivisionError
  | IndexError
  | ValueError
  | LinAlgError.

Inductive result (T : Type) : Type :=
  | Ok of T
  | Raise of exn.

Arguments Raise {T} e.

Definition bind (T U : Type) (r : result T) (f : T -> result U) : result U :=
  match r with
  | Ok x => f x
  | Raise e => Raise e
  end.

Declare Scope result_scope.
Delimit Scope result_scope with res.
Notation "x <- r ;; k" := (bind r (fun x => k))
  (at level 100, r at next level, k at level 200, right associativity)
  : result_scope.
Local Open Scope result_scope.

(** [for x in s: acc = body(x, acc)], the loop stopping at the first
    exception. *)
Fixpoint for_ (A S : Type) (s : seq A) (body : A -> S -> result S) (acc : S)
  : result S :=
  if s is x :: s' then bind (body x acc) (for_ s' body) else Ok acc.

(** [range(n)] *)
Definition range (n : nat) : seq nat := iota 0 n.

(** [enumerate(s)] *)
Definition enumerate (T : Type) (s : seq T) : seq (nat * T) :=
  zip (iota 0 (size s)) s.

(** [s[i]] for a list or the first axis of an array. *)
Definition getitem (T : Type) (s : seq T) (i : nat) : result T :=
  if ohead (drop i s) is Some x then Ok x else Raise IndexError.

(** [a // b] on non-negative integers. *)
Definition floordiv (a b : nat) : result nat :=
  if b == 0%N then Raise ZeroDivisionError else Ok (a %/ b)%N.

(** Sum of two results, the left one evaluated first. *)
Definition radd (F : nzRingType) (x y : result F) : result F :=
  a <- x ;; b <- y ;; Ok (a + b).

(** The result is a value or an [IndexError]. *)
Definition index_only (T : Type) (r : result T) : Prop :=
  match r with
  | Ok _ => True
  | Raise IndexError => True
  | Raise _ => False
  end.

(** ** The numpy operations the program uses *)

Module np.
Section Arrays.

Variable F : fieldType.

Definition ncols (T : Type) (A : seq (seq T)) : nat := size (head [::] A).

(** The array with [r] rows and [c] columns whose entry at [(i, j)] is
    [f i j] (used in statements only). *)
Definition mkmx (T : Type) (r c : nat) (f : nat -> nat -> T) : seq (seq T) :=
  mkseq (fun i => mkseq (f i) c) r.

(** [A.shape == (r, c)] *)
Definition has_shape (T : Type) (r c : nat) (A : seq (seq T)) : bool :=
  (size A == r) && all (fun row => size row == c) A.

(** [A[r, c]] read without bounds check (used in statements only). *)
Definition entry (A : seq (seq F)) (r c : nat) : F := nth 0 (nth [::] A r) c.

(** [np.zeros((r, c))] *)
Definition zeros (r c : nat) : seq (seq F) := nseq r (nseq c 0).

(** [np.ones((r, c))] *)
Definition ones (r c : nat) : seq (seq F) := nseq r (nseq c 1).

(** [np.identity(n)] *)
Definition identity (n : nat) : seq (seq F) :=
  mkseq (fun i => mkseq (fun j => if i == j then 1 else 0) n) n.

(** [np.hstack(xs)] for a sequence of one-dimensional arrays of one dtype
    (for lists of indices: none of them empty beside a non-empty one);
    numpy needs at least one array. *)
Definition hstack (T : Type) (xs : seq (seq T)) : result (seq T) :=
  if xs is [::] then Raise ValueError else Ok (flatten xs).

(** [np.repeat(a, k)] *)
Definition repeat (T : Type) (a : seq T) (k : nat) : seq T :=
  flatten [seq nseq k x | x <- a].

(** [np.diag(v)] for a one-dimensional [v] *)
Definition diag (v : seq F) : seq (seq F) :=
  mkseq (fun i => mkseq (fun j => if i == j then nth 0 v i else 0) (size v))
        (size v).

(** [np.tile(a, (reps, 1))] for a one-dimensional [a] *)
Definition tile (T : Type) (a : seq T) (reps : nat) : seq (seq T) :=
  nseq reps a.

(** [np.transpose(A)] *)
Definition transpose (A : seq (seq F)) : seq (seq F) :=
  mkseq (fun c => mkseq (fun r => entry A r c) (size A)) (ncols A).

(** [A[:, c]]; the column must exist. *)
Definition getcol (A : seq (seq F)) (c : nat) : result (seq F) :=
  if (c < ncols A)%N then Ok [seq nth 0 row c | row <- A] else Raise IndexError.

(** [A[r, c]] *)
Definition getitem2 (A : seq (seq F)) (r c : nat) : result F :=
  row <- getitem A r ;; getitem row c.

(** [A[r, c] = x] *)
Definition setitem2 (A : seq (seq F)) (r c : nat) (x : F)
  : result (seq (seq F)) :=
  if (r < size A)%N && (c < ncols A)%N
  then Ok (set_nth [::] A r (set_nth 0 (nth [::] A r) c x))
  else Raise IndexError.

(** [A[lo:hi, :] = R], for [R] of the shape of the slice *)
Definition setrows (A : seq (seq F)) (lo hi : nat) (R : seq (seq F))
  : seq (seq F) :=
  take lo A ++ R ++ drop hi A.

(** [np.concatenate((A, B), axis=1)]: the row counts must agree. *)
Definition concatenate1 (A B : seq (seq F)) : result (seq (seq F)) :=
  if size A == size B then Ok [seq p.1 ++ p.2 | p <- zip A B]
  else Raise ValueError.

(** [np.concatenate((A, B), axis=0)]: the column counts must agree. *)
Definition concatenate0 (A B : seq (seq F)) : result (seq (seq F)) :=
  if ncols A == ncols B then Ok (A ++ B) else Raise ValueError.

(** Element-wise operations on arrays of one shape. *)
Definition map2 (T U V : Type) (f : T -> U -> V) (s : seq T) (t : seq U)
  : seq V :=
  [seq f p.1 p.2 | p <- zip s t].

Definition vadd (u v : seq F) : seq F := map2 +%R u v.

Definition add (A B : seq (seq F)) : seq (seq F) := map2 vadd A B.

Definition subtract (A B : seq (seq F)) : seq (seq F) :=
  map2 (map2 (fun a b => a - b)) A B.

Definition multiply (A B : seq (seq F)) : seq (seq F) :=
  map2 (map2 *%R) A B.

Definition negative (A : seq (seq F)) : seq (seq F) :=
  [seq [seq - x | x <- row] | row <- A].

(** [k * A] for a scalar [k] *)
Definition scale (k : F) (A : seq (seq F)) : seq (seq F) :=
  [seq [seq k * x | x <- row] | row <- A].

(** A quotient of scalars under [np.errstate(divide="ignore",
    invalid="ignore")]: non-finite ([None]) when the denominator is zero. *)
Definition divide (a b : F) : option F :=
  if b == 0 then None else Some (a / b).

(** [np.true_divide(A, B)] *)
Definition true_divide (A B : seq (seq F)) : seq (seq (option F)) :=
  map2 (map2 divide) A B.

(** [A[~np.isfinite(A)] = 0.] *)
Definition zero_nonfinite (A : seq (seq (option F))) : seq (seq F) :=
  [seq [seq (if q is Some x then x else 0) | q <- row] | row <- A].

(** [np.sum(v)] for a one-dimensional [v] *)
Definition vsum (v : seq F) : F := foldr +%R 0 v.

(** [np.dot(A, B)] *)
Definition dot (A B : seq (seq F)) : seq (seq F) :=
  [seq mkseq (fun c =>
               vsum (mkseq (fun k => nth 0 row k * entry B k c) (size B)))
         (ncols B)
  | row <- A].

(** [np.sum(A)] *)
Definition sum (A : seq (seq F)) : F := vsum (flatten A).

End Arrays.
End np.

(** ** The program *)

Section Program.

Variable F : fieldType.

(** [scipy.linalg.eig(a, b=b, right=True)] and [np.linalg.solve(a, b)];
    either may fail. *)
Variable eig : seq (seq F) -> seq (seq F) -> result (seq F * seq (seq F)).
Variable solve : seq (seq F) -> seq (seq F) -> result (seq (seq F)).

(** Sum of extended scalars: a non-finite operand gives a non-finite sum. *)
Definition xadd (a b : option F) : option F :=
  if a is Some x then (if b is Some y then Some (x + y) else None) else None.

(** The damping matrix.  The index [3 * driver + i] is a natural number
    here; numpy computes it in its integers. *)
Definition _calculate_gamma_mat (dim N : nat) (gamma : F)
    (drivers : seq (seq nat)) : result (seq (seq F)) :=
  let gmat := np.zeros F (dim * N) (dim * N) in
  drivers <- np.hstack drivers ;;
  for_ drivers (fun driver gmat =>
    for_ (range dim) (fun i gmat =>
      np.setitem2 gmat (3 * driver + i) (3 * driver + i) gamma) gmat) gmat.

Definition _calculate_thermal_evec (K G M : seq (seq F))
  : result (seq F * seq (seq F)) :=
  let N := size M in
  let a := np.zeros F N N in
  a <- np.concatenate1 a (np.identity F N) ;;
  b <- np.concatenate1 K G ;;
  c <- np.concatenate0 a b ;;
  let x := np.identity F N in
  x <- np.concatenate1 x (np.zeros F N N) ;;
  y <- np.concatenate1 (np.zeros F N N) (np.negative M) ;;
  z <- np.concatenate0 x y ;;
  eig c z.

Definition _calculate_coeff (val : seq F) (vec massMat gMat : seq (seq F))
  : result (seq (seq F)) :=
  let N := (size vec %/ 2)%N in
  let A := np.zeros F (2 * N) (2 * N) in
  let A := np.setrows A 0 N (take N vec) in
  let lamda := np.tile val N in
  let A :=
    np.setrows A N (2 * N)
      (np.multiply (take N A)
         (np.add (np.dot massMat lamda)
                 (np.dot gMat (np.ones F N (2 * N))))) in
  B <- np.concatenate0 (np.zeros F N N) (np.identity F N) ;;
  solve A B.

(** Lines 79-84 of [_calculate_power]: the regularised kernel matrix.  Its
    columns follow [val_sigma], its rows [val_tau]. *)
Definition valterm (val : seq F) : seq (seq F) :=
  let n := size val in
  let val_sigma := np.tile val n in
  let val_tau := np.transpose val_sigma in
  let valterm :=
    np.true_divide (np.subtract val_sigma val_tau) (np.add val_sigma val_tau) in
  np.zero_nonfinite valterm.

Definition _calculate_power (i j dim : nat) (val : seq F)
    (vec coeff kMatrix : seq (seq F)) (driverList : seq (seq nat))
  : result F :=
  driver1 <- getitem driverList 1 ;;
  let n := size val in
  let valterm := valterm val in
  for_ (range dim) (fun idim kappa =>
    for_ (range dim) (fun jdim kappa =>
      vi <- getitem vec (3 * i + idim) ;;
      let term3 := np.tile vi n in
      vj <- getitem vec (3 * j + jdim) ;;
      let term4 := np.transpose (np.tile vj n) in
      for_ driver1 (fun driver kappa =>
        c0 <- np.getcol coeff (3 * driver) ;;
        c1 <- np.getcol coeff (3 * driver + 1) ;;
        c2 <- np.getcol coeff (3 * driver + 2) ;;
        let term1 := np.tile (np.vadd (np.vadd c0 c1) c2) n in
        let term2 := np.transpose term1 in
        kij <- np.getitem2 kMatrix (3 * i + idim) (3 * j + jdim) ;;
        let termArr :=
          np.multiply
            (np.multiply
               (np.multiply (np.multiply (np.scale kij term1) term2) term3)
               term4)
            valterm in
        Ok (kappa + np.sum termArr)) kappa) kappa) 0.

(** The scalar loops.  Whether a division by zero raises
    [FloatingPointError] depends on numpy's error state, which the function
    reads from its environment: [fp_raise] says it is set to raise, and the
    handler then skips the term; otherwise the quotient is non-finite and
    so is the running sum. *)
Definition _calculate_power_loop (fp_raise : bool) (i j dim : nat)
    (val : seq F) (vec coeff kMatrix : seq (seq F))
    (driverList : seq (seq nat)) : result (option F) :=
  driver1 <- getitem driverList 1 ;;
  let n := (size val %/ 2)%N in
  for_ (range dim) (fun idim kappa =>
    for_ (range dim) (fun jdim kappa =>
      for_ driver1 (fun driver kappa =>
        term <-
          for_ (range (2 * n)) (fun sigma term =>
            s1 <- np.getitem2 coeff sigma (3 * driver + 1) ;;
            s2 <- np.getitem2 coeff sigma (3 * driver + 2) ;;
            s0 <- np.getitem2 coeff sigma (3 * driver) ;;
            let cosigma := s1 + s2 + s0 in
            for_ (range (2 * n)) (fun tau term =>
              t0 <- np.getitem2 coeff tau (3 * driver) ;;
              t1 <- np.getitem2 coeff tau (3 * driver + 1) ;;
              t2 <- np.getitem2 coeff tau (3 * driver + 2) ;;
              let cotau := t0 + t1 + t2 in
              kij <- np.getitem2 kMatrix (3 * i + idim) (3 * j + jdim) ;;
              vi <- np.getitem2 (take n vec) (3 * i + idim) sigma ;;
              vj <- np.getitem2 (take n vec) (3 * j + jdim) tau ;;
              vs <- getitem val sigma ;;
              vt <- getitem val tau ;;
              match np.divide (vs - vt) (vs + vt) with
              | Some q =>
                  Ok (xadd term (Some (kij * (cosigma * cotau * vi * vj * q))))
              | None => if fp_raise then Ok term else Ok None
              end) term) (Some 0) ;;
        Ok (xadd kappa term)) kappa) kappa) (Some 0).

(** The entry point.  For index groups of one length [np.array(drivers)]
    is the two-dimensional array whose rows are the groups, and the later
    stages read the groups from it as they were. *)
Definition kappa (m : seq F) (k : seq (seq F)) (drivers : seq (seq nat))
    (crossings : seq (nat * nat)) (gamma : F) : result F :=
  dim <- floordiv (size k) (size m) ;;
  g <- _calculate_gamma_mat dim (size m) gamma drivers ;;
  let m := np.diag (np.repeat m dim) in
  vv <- _calculate_thermal_evec k g m ;;
  let val := vv.1 in
  let vec := vv.2 in
  coeff <- _calculate_coeff val vec m g ;;
  for_ crossings (fun crossing kappa =>
    let i := crossing.1 in
    let j := crossing.2 in
    p <- _calculate_power i j dim val vec coeff k drivers ;;
    Ok (kappa + p)) 0.

(** The Hessian of a network with one spring constant: [nLists[i]] lists
    the neighbours of the atom [i]. *)
Definition _calculate_ballandspring_k_mat (N : nat) (k0 : F)
    (nLists : seq (seq nat)) : result (seq (seq F)) :=
  let KMatrix := np.zeros F (3 * N) (3 * N) in
  for_ (enumerate nLists) (fun inList KMatrix =>
    let i := inList.1 in
    let nList := inList.2 in
    KMatrix <-
      np.setitem2 KMatrix (3 * i) (3 * i) (k0 * (size nList)%:R) ;;
    KMatrix <-
      np.setitem2 KMatrix (3 * i + 1) (3 * i + 1) (k0 * (size nList)%:R) ;;
    KMatrix <-
      np.setitem2 KMatrix (3 * i + 2) (3 * i + 2) (k0 * (size nList)%:R) ;;
    for_ nList (fun neighbor KMatrix =>
      KMatrix <- np.setitem2 KMatrix (3 * i) (3 * neighbor) (- k0) ;;
      KMatrix <-
        np.setitem2 KMatrix (3 * i + 1) (3 * neighbor + 1) (- k0) ;;
      np.setitem2 KMatrix (3 * i + 2) (3 * neighbor + 2) (- k0)) KMatrix)
    KMatrix.

End Program.

(** ** What the specification says, in the terms of the program *)

Section Statements.

Variable F : fieldType.

(** [K] is equal to its transpose. *)
Definition symmetric (K : seq (seq F)) : bool := np.transpose K == K.

(** No two eigenvalues (equal or not) sum to zero. *)
Definition no_resonance (val : seq F) : bool :=
  all (fun x => all (fun y => x + y != 0) val) val.

(** The regularised kernel of the mode pair [(sigma, tau)]. *)
Definition kernel (val : seq F) (sigma tau : nat) : F :=
  let ls := nth 0 val sigma in
  let lt := nth 0 val tau in
  if ls + lt == 0 then 0 else (ls - lt) / (ls + lt).

(** The sum of the three coefficient entries of a driven atom for one
    mode. *)
Definition cosum (coeff : seq (seq F)) (driver mode : nat) : F :=
  np.entry coeff mode (3 * driver) + np.entry coeff mode (3 * driver + 1)
  + np.entry coeff mode (3 * driver + 2).

(** One term of the flux sum. *)
Definition flux_term (val : seq F) (vec coeff kMatrix : seq (seq F))
    (i j idim jdim driver sigma tau : nat) : F :=
  np.entry kMatrix (3 * i + idim) (3 * j + jdim)
  * cosum coeff driver sigma * cosum coeff driver tau
  * np.entry vec (3 * i + idim) sigma * np.entry vec (3 * j + jdim) tau
  * kernel val sigma tau.

(** The flux through the bond [(i, j)] as the specification writes it. *)
Definition flux_formula (i j dim : nat) (val : seq F)
    (vec coeff kMatrix : seq (seq F)) (driver1 : seq nat) : F :=
  \sum_(0 <= idim < dim) \sum_(0 <= jdim < dim) \sum_(driver <- driver1)
    \sum_(0 <= sigma < size val) \sum_(0 <= tau < size val)
      flux_term val vec coeff kMatrix i j idim jdim driver sigma tau.

(** A well-formed input of the flux integrator, as [kappa] builds it: [2N]
    eigenvalues, a [2N x 2N] array of eigenvectors, a [2N x N] array of
    coefficients and an [N x N] Hessian, every index used lying inside. *)
Definition wf_flux (i j dim : nat) (val : seq F)
    (vec coeff kMatrix : seq (seq F)) (driverList : seq (seq nat)) : bool :=
  let n := size val in
  let N := (n %/ 2)%N in
  [&& n == (2 * N)%N, np.has_shape n n vec, np.has_shape n N coeff,
      np.has_shape N N kMatrix, (3 * i + dim <= N)%N, (3 * j + dim <= N)%N,
      (1 < size driverList)%N
    & all (fun d => 3 * d + 3 <= N)%N (nth [::] driverList 1)].

(** The diagonal array of side [n] with [x] at the diagonal positions
    selected by [S], zero elsewhere. *)
Definition diag_where (n : nat) (S : pred nat) (x : F) : seq (seq F) :=
  np.mkmx n n (fun r c => if (r == c) && S r then x else 0).

(** The damping matrix as the specification describes it: [gamma] on the
    diagonal at every degree of freedom [dim * idx + c] of a driven atom
    [idx], zero elsewhere. *)
Definition gamma_mat_spec (dim N : nat) (gamma : F) (drivers : seq (seq nat))
  : seq (seq F) :=
  diag_where (dim * N) (fun r => (r %/ dim)%N \in flatten drivers) gamma.

(** The neighbour lists fit a network of [N] atoms: at most [N] lists and
    every neighbour an atom of the network. *)
Definition spring_valid (N : nat) (nLists : seq (seq nat)) : bool :=
  (size nLists <= N)%N && all (all (fun nb => nb < N)%N) nLists.

(** Every neighbour lists the atom back. *)
Definition spring_mutual (nLists : seq (seq nat)) : bool :=
  all (fun i => all (fun j => i \in nth [::] nLists j) (nth [::] nLists i))
      (iota 0 (size nLists)).

(** No neighbour is listed twice and no atom is its own neighbour. *)
Definition spring_simple (nLists : seq (seq nat)) : bool :=
  all (fun i => uniq (nth [::] nLists i) && (i \notin nth [::] nLists i))
      (iota 0 (size nLists)).

(** [x] fits the default integer of numpy on every platform (32 or 64
    bits): thirty-one halvings bring it to zero, that is [x < 2 ^ 31]. *)
Definition machine_int (x : nat) : bool := iter 31 half x == 0%N.

(** Driver groups that [np.hstack] stacks into an array of integers: no
    group is empty, and the indices [3 * d + c], [c < 3], computed from the
    atoms fit the integers of numpy. *)
Definition index_groups (drivers : seq (seq nat)) : bool :=
  all (fun g => g != [::]) drivers
  && all (fun d => machine_int (3 * d + 2)) (flatten drivers).

(** All the rows have one length. *)
Definition rectangular (T : Type) (xs : seq (seq T)) : bool :=
  all (fun g => size g == size (head [::] xs)) xs.

(** Driver groups that [np.array] turns into a two-dimensional array of
    integers: they have one length and the indices computed from the atoms
    fit the integers of numpy. *)
Definition index_array (drivers : seq (seq nat)) : bool :=
  rectangular drivers
  && all (fun d => machine_int (3 * d + 2)) (flatten drivers).

(** Every write of the damping matrix builder lies inside the array. *)
Definition gamma_in_bounds (dim N : nat) (drivers : seq (seq nat)) : bool :=
  all (fun d => (dim == 0%N) || (3 * d + dim <= dim * N)%N) (flatten drivers).

(** The rows of the damping matrix that carry [gamma]. *)
Definition damped (dim : nat) (drivers : seq (seq nat)) : pred nat :=
  fun r => has (fun d => 3 * d <= r < 3 * d + dim)%N (flatten drivers).

(** A well-formed input of [kappa]: driver groups of one length that make
    an array of integers, a number of degrees of freedom that fits the
    integers of numpy, at least one mass, a square Hessian of side
    [dim * len(m)], two driver groups, and every index the damping matrix
    builder and the flux integrator use lying inside. *)
Definition wf_kappa (m : seq F) (k : seq (seq F)) (drivers : seq (seq nat))
    (crossings : seq (nat * nat)) : bool :=
  let dim := (size k %/ size m)%N in
  let N := (dim * size m)%N in
  [&& index_array drivers, machine_int N, (0 < size m)%N,
      np.has_shape N N k, (1 < size drivers)%N,
      gamma_in_bounds dim (size m) drivers,
      all (fun d => 3 * d + 3 <= N)%N (nth [::] drivers 1)
    & all (fun c => (3 * c.1 + dim <= N)%N && (3 * c.2 + dim <= N)%N)
          crossings].

(** The shapes of the arrays of the flux integrator, as [kappa] builds
    them: [2N] eigenvalues, a [2N x 2N] array of eigenvectors, a [2N x N]
    array of coefficients, an [N x N] Hessian, and two driver groups. *)
Definition flux_shapes (val : seq F) (vec coeff kMatrix : seq (seq F))
    (driverList : seq (seq nat)) : bool :=
  let n := size val in
  let N := (n %/ 2)%N in
  [&& n == (2 * N)%N, np.has_shape n n vec, np.has_shape n N coeff,
      np.has_shape N N kMatrix & (1 < size driverList)%N].

(** Every index [_calculate_power] reads lies inside: the rows of the
    eigenvectors, and, when there is a driven atom, the entries of the
    Hessian and the columns of the coefficients. *)
Definition flux_in_bounds (i j dim n : nat) (driver1 : seq nat) : bool :=
  let N := (n %/ 2)%N in
  (dim == 0%N)
  || [&& (3 * i + dim <= n)%N, (3 * j + dim <= n)%N
       & (driver1 == [::])
         || [&& (3 * i + dim <= N)%N, (3 * j + dim <= N)%N
              & all (fun d => 3 * d + 3 <= N)%N driver1]].

(** The entry [(a, b)] of the Hessian built from the neighbour lists: in
    the row of the component [a %% 3] of the atom [a %/ 3], [- k0] at the
    same component of every neighbour, else [k0] times the length of the
    neighbour list on the diagonal, else zero. *)
Definition spring_entry (k0 : F) (nLists : seq (seq nat)) (a b : nat) : F :=
  let i := (a %/ 3)%N in
  let nList := nth [::] nLists i in
  if (b %% 3 == a %% 3)%N && ((b %/ 3)%N \in nList) then - k0
  else if (a == b) && (i < size nLists)%N then k0 * (size nList)%:R
  else 0.

(** The Kronecker delta. *)
Definition delta (i j : nat) : F := if i == j then 1 else 0.

(** The matrix of the four blocks [[A, B], [C, D]], each of side [N]. *)
Definition block_mx (N : nat) (A B C D : nat -> nat -> F) : seq (seq F) :=
  np.mkmx (2 * N) (2 * N) (fun r c =>
    if (r < N)%N then (if (c < N)%N then A r c else B r (c - N)%N)
    else (if (c < N)%N then C (r - N)%N c else D (r - N)%N (c - N)%N)).

(** The two sides [[0, I], [K, G]] and [[I, 0], [0, -M]] of the generalized
    eigenvalue problem. *)
Definition companion_left (N : nat) (K G : seq (seq F)) : seq (seq F) :=
  block_mx N (fun _ _ => 0) delta (np.entry K) (np.entry G).

Definition companion_right (N : nat) (M : seq (seq F)) : seq (seq F) :=
  block_mx N delta (fun _ _ => 0) (fun _ _ => 0) (fun r c => - np.entry M r c).

(** The columns of [vr] are eigenvectors of the pencil [(L, R)] for the
    eigenvalues [w]: [L vr = R vr diag(w)], that is [L v = w[j] R v] for
    every column [v = vr[:, j]]. *)
Definition eigenpairs (L R : seq (seq F)) (w : seq F) (vr : seq (seq F))
  : bool :=
  [&& size w == size L, np.has_shape (size L) (size L) vr
    & np.dot L vr == np.dot R (np.multiply vr (np.tile w (size vr)))].

(** What [scipy.linalg.eig] promises when it returns. *)
Definition eig_contract
    (eig : seq (seq F) -> seq (seq F) -> result (seq F * seq (seq F)))
  : Prop :=
  forall a b w vr, eig a b = Ok (w, vr) -> eigenpairs a b w vr.

(** [X] solves [A X = B]. *)
Definition solution (A B X : seq (seq F)) : bool :=
  np.has_shape (size A) (np.ncols B) X && (np.dot A X == B).

(** What [np.linalg.solve] promises when it returns. *)
Definition solve_contract
    (solve : seq (seq F) -> seq (seq F) -> result (seq (seq F))) : Prop :=
  forall A B X, solve A B = Ok X -> solution A B X.

(** The weight of row [r] and mode [c] in the lower half of the
    coefficient system: the mode's eigenvalue times the mass of the row,
    plus the damping of the row. *)
Definition coeff_weight (N : nat) (val : seq F) (M G : seq (seq F))
    (r c : nat) : F :=
  np.vsum (mkseq (np.entry M r) N) * nth 0 val c
  + np.vsum (mkseq (np.entry G r) N).

(** The two sides of the coefficient system [A X = B]. *)
Definition coeff_lhs (N : nat) (val : seq F) (vec M G : seq (seq F))
  : seq (seq F) :=
  np.mkmx (2 * N) (2 * N) (fun r c =>
    if (r < N)%N then np.entry vec r c
    else np.entry vec (r - N)%N c * coeff_weight N val M G (r - N)%N c).

Definition coeff_rhs (N : nat) : seq (seq F) :=
  np.mkmx (2 * N) N (fun r c => if (r < N)%N then 0 else delta (r - N)%N c).

End Statements.

(** ** Concrete systems over the rationals *)

(** Solvers that always fail. *)
Definition no_eig (a b : seq (seq rat)) : result (seq rat * seq (seq rat)) :=
  Raise LinAlgError.

Definition no_solve (a b : seq (seq rat)) : result (seq (seq rat)) :=
  Raise LinAlgError.

(** One atom of mass 1 with three degrees of freedom, held by springs of
    constant 2 and driven with the drag coefficient 3.  Every degree of
    freedom has the two damped modes of eigenvalues -1 and -2, the roots of
    [x^2 + 3 x + 2]. *)
Definition atom_m : seq rat := [:: 1].

Definition atom_k : seq (seq rat) := np.diag [:: 2%:R; 2%:R; 2%:R].

Definition atom_drivers : seq (seq nat) := [:: [:: 0%N]; [:: 0%N]].

Definition atom_gamma : rat := 3%:R.

Definition atom_g : seq (seq rat) := np.diag [:: 3%:R; 3%:R; 3%:R].

Definition atom_mass : seq (seq rat) := np.diag [:: 1; 1; 1].

Definition atom_val : seq rat :=
  [:: -1; -1; -1; - 2%:R; - 2%:R; - 2%:R].

Definition atom_vec : seq (seq rat) :=
  np.mkmx 6 6 (fun r c =>
    if (r < 3)%N then delta rat r (c %% 3)
    else nth 0 atom_val c * delta rat (r - 3) (c %% 3)).

Definition atom_coeff : seq (seq rat) :=
  np.mkmx 6 3 (fun r c =>
    if (r < 3)%N then delta rat r c else - delta rat (r - 3) c).

(** Solvers that know this one system. *)
Definition atom_eig (a b : seq (seq rat))
  : result (seq rat * seq (seq rat)) :=
  if (a == companion_left 3 atom_k atom_g)
     && (b == companion_right 3 atom_mass)
  then Ok (atom_val, atom_vec) else Raise LinAlgError.

Definition atom_solve (a b : seq (seq rat)) : result (seq (seq rat)) :=
  if (a == coeff_lhs 3 atom_val atom_vec atom_mass atom_g)
     && (b == coeff_rhs rat 3)
  then Ok atom_coeff else Raise LinAlgError.

(** Two atoms of mass 1 joined by a spring of constant 1, both driven with
    the drag coefficient 3.  In each of the three directions the centre
    of mass has the modes of eigenvalues 0 and -3, and the relative
    motion the modes of eigenvalues -1 and -2: the mode [s] moves in the
    direction [s %/ 4]. *)
Definition duo_m : seq rat := [:: 1; 1].

Definition duo_k : seq (seq rat) :=
  np.mkmx 6 6 (fun a b =>
    if (a %% 3 == b %% 3)%N then (if a == b then 1 else -1) else 0).

Definition duo_drivers : seq (seq nat) := [:: [:: 0%N]; [:: 1%N]].

Definition duo_g : seq (seq rat) := np.diag (nseq 6 3%:R).

Definition duo_mass : seq (seq rat) := np.diag (nseq 6 1).

Definition duo_val : seq rat :=
  mkseq (fun s => nth 0 [:: 0; - 3%:R; -1; - 2%:R] (s %% 4)) 12.

(** The displacement of the degree of freedom [r] in the mode [s]. *)
Definition duo_mode (r s : nat) : rat :=
  if (r %% 3 == s %/ 4)%N
  then (if (r < 3)%N || (s %% 4 < 2)%N then 1 else -1)
  else 0.

Definition duo_vec : seq (seq rat) :=
  np.mkmx 12 12 (fun r s =>
    if (r < 6)%N then duo_mode r s else nth 0 duo_val s * duo_mode (r - 6) s).

Definition duo_coeff : seq (seq rat) :=
  np.mkmx 12 6 (fun s c =>
    nth 0 [:: 1 / 6%:R; - (1 / 6%:R); 1 / 2%:R; - (1 / 2%:R)] (s %% 4)
    * duo_mode c s).

(** Solvers that know this one system. *)
Definition duo_eig (a b : seq (seq rat))
  : result (seq rat * seq (seq rat)) :=
  if (a == companion_left 6 duo_k duo_g)
     && (b == companion_right 6 duo_mass)
  then Ok (duo_val, duo_vec) else Raise LinAlgError.

Definition duo_solve (a b : seq (seq rat)) : result (seq (seq rat)) :=
  if (a == coeff_lhs 6 duo_val duo_vec duo_mass duo_g)
     && (b == coeff_rhs rat 6)
  then Ok duo_coeff else Raise LinAlgError.

(** Arrays of the shapes of a system of two atoms with three degrees of
    freedom each (twelve modes), to run the flux integrator on. *)
Definition pair_val : seq rat := mkseq (fun s => s.+1%:R) 12.

Definition pair_vec : seq (seq rat) :=
  np.mkmx 12 12 (fun r c => (r + 2 * c)%:R).

Definition pair_coeff : seq (seq rat) :=
  np.mkmx 12 6 (fun r c => (r * c + 1)%:R).

Definition pair_k : seq (seq rat) :=
  np.mkmx 6 6 (fun a b => (a * b)%:R - (a + b)%:R).

Definition pair_drivers : seq (seq nat) := [:: [:: 0%N]; [:: 1%N]].

(** Seven eigenvalues, an odd number that no eigensolver of a [2N x 2N]
    pencil returns: the scalar loops read the first [2 * (7 // 2) = 6] of
    them, the array computation all seven. *)
Definition odd_val : seq rat := [:: 1; 1; 1; 1; 1; 1; 3%:R].

Definition odd_vec : seq (seq rat) :=
  np.mkmx 7 7 (fun r c =>
    if ((r == 0%N) && (c == 6%N)) || ((r == 1%N) && (c == 0%N)) then 1 else 0).

Definition odd_coeff : seq (seq rat) :=
  np.mkmx 7 3 (fun r c => if c == 0%N then 1 else 0).

Definition odd_k : seq (seq rat) :=
  np.mkmx 3 3 (fun r c => if (r == 0%N) && (c == 1%N) then 1 else 0).

Definition odd_drivers : seq (seq nat) := [:: [:: 0%N]; [:: 0%N]].

(** Twelve eigenvalues of which the first two sum to zero. *)
Definition res_val : seq rat :=
  mkseq (fun s => if s == 1%N then -1 else s.+1%:R) 12.

(** The neighbour lists of a chain of three atoms. *)
Definition chain_nLists : seq (seq nat) :=
  [:: [:: 1%N]; [:: 0%N; 2%N]; [:: 1%N]].

(** ** Loops, arrays and shapes *)

Section Loops.

Lemma getitem_nth (T : Type) (x0 : T) (s : seq T) (i : nat) :
  (i < size s)%N -> getitem s i = Ok (nth x0 s i).
Proof. by move=> lt_i; rewrite /getitem (drop_nth x0). Qed.

Lemma getitem_oob (T : Type) (s : seq T) (i : nat) :
  (size s <= i)%N -> getitem s i = Raise IndexError.
Proof. by move=> le_s; rewrite /getitem drop_oversize. Qed.

Lemma for_cat (A S : Type) (s1 s2 : seq A) (body : A -> S -> result S) acc :
  for_ (s1 ++ s2) body acc = bind (for_ s1 body acc) (for_ s2 body).
Proof.
elim: s1 acc => [|x s1 IH] acc //=.
by case: (body x acc) => [acc'|e] //=.
Qed.

Lemma for_sum (R : nzRingType) (A : eqType) (s : seq A)
    (body : A -> R -> result R) (f : A -> R) (acc : R) :
  (forall x a, x \in s -> body x a = Ok (a + f x)) ->
  for_ s body acc = Ok (acc + \sum_(x <- s) f x).
Proof.
elim: s acc => [|x s IH] acc Hb; first by rewrite big_nil addr0.
have Hs y a : y \in s -> body y a = Ok (a + f y).
  by move=> y_s; apply: Hb; rewrite in_cons y_s orbT.
by rewrite /= Hb ?mem_head //= (IH _ Hs) big_cons addrA.
Qed.

End Loops.

Section ArrayLemmas.
Variable F : fieldType.
Implicit Types (A B : seq (seq F)) (u v : seq F).

Lemma eq_in_mkseq (T : Type) (f g : nat -> T) (n : nat) :
  (forall i, (i < n)%N -> f i = g i) -> mkseq f n = mkseq g n.
Proof.
by move=> fg; apply/eq_in_map => i; rewrite mem_iota add0n => /andP [_ /fg].
Qed.

Lemma eq_in_mkmx (T : Type) (f g : nat -> nat -> T) (r c : nat) :
  (forall i j, (i < r)%N -> (j < c)%N -> f i j = g i j) ->
  np.mkmx r c f = np.mkmx r c g.
Proof.
move=> fg; apply: eq_in_mkseq => i lt_i.
by apply: eq_in_mkseq => j; apply: fg.
Qed.

Lemma size_mkmx (T : Type) (f : nat -> nat -> T) r c : size (np.mkmx r c f) = r.
Proof. by rewrite size_mkseq. Qed.

Lemma entry_mkmx (f : nat -> nat -> F) r c i j :
  (i < r)%N -> (j < c)%N -> np.entry (np.mkmx r c f) i j = f i j.
Proof. by move=> lt_i lt_j; rewrite /np.entry /np.mkmx !nth_mkseq. Qed.

Lemma ncols_mkmx (T : Type) (f : nat -> nat -> T) r c :
  (0 < r)%N -> np.ncols (np.mkmx r c f) = c.
Proof. by case: r => // r _; rewrite /np.ncols /np.mkmx /mkseq /= size_map size_iota. Qed.

Lemma has_shape_mkmx (T : Type) (f : nat -> nat -> T) r c :
  np.has_shape r c (np.mkmx r c f).
Proof.
rewrite /np.has_shape size_mkmx eqxx /=.
by rewrite /np.mkmx /mkseq all_map; apply/allP => i _ /=; rewrite size_map size_iota.
Qed.

Lemma mkmx_of_shape A r c :
  np.has_shape r c A -> A = np.mkmx r c (np.entry A).
Proof.
case/andP => /eqP sz_A /allP sz_row.
apply: (@eq_from_nth _ [::]); first by rewrite size_mkmx.
move=> i lt_i; rewrite /np.mkmx nth_mkseq -?sz_A //.
apply: (@eq_from_nth _ 0).
  by rewrite size_mkseq; apply/eqP/sz_row/mem_nth.
move=> j; rewrite (eqP (sz_row _ (mem_nth _ lt_i))) => lt_j.
by rewrite nth_mkseq.
Qed.

Lemma tile_mkmx v n : np.tile v n = np.mkmx n (size v) (fun _ j => nth 0 v j).
Proof.
rewrite /np.tile /np.mkmx.
apply: (@eq_from_nth _ [::]); first by rewrite size_nseq size_mkseq.
move=> i; rewrite size_nseq => lt_i.
by rewrite nth_nseq lt_i nth_mkseq // mkseq_nth.
Qed.

Lemma transpose_mkmx (f : nat -> nat -> F) n :
  np.transpose (np.mkmx n n f) = np.mkmx n n (fun i j => f j i).
Proof.
rewrite /np.transpose size_mkmx.
case: n => [|n] //; rewrite ncols_mkmx //.
apply: eq_in_mkseq => i lt_i; apply: eq_in_mkseq => j lt_j.
by rewrite entry_mkmx.
Qed.

Lemma map2_mkseq (T U V : Type) (g : T -> U -> V) f1 f2 n :
  np.map2 g (mkseq f1 n) (mkseq f2 n) = mkseq (fun i => g (f1 i) (f2 i)) n.
Proof. by rewrite /np.map2 /mkseq zip_map -map_comp. Qed.

Lemma map2_mkmx (T U V : Type) (g : T -> U -> V) f1 f2 r c :
  np.map2 (np.map2 g) (np.mkmx r c f1) (np.mkmx r c f2)
  = np.mkmx r c (fun i j => g (f1 i j) (f2 i j)).
Proof.
rewrite /np.mkmx map2_mkseq; apply: eq_in_mkseq => i _.
by rewrite map2_mkseq.
Qed.

Lemma map_mkmx (T U : Type) (h : T -> U) f r c :
  [seq [seq h x | x <- row] | row <- np.mkmx r c f]
  = np.mkmx r c (fun i j => h (f i j)).
Proof.
rewrite /np.mkmx /mkseq -map_comp; apply: eq_map => i /=.
by rewrite -map_comp.
Qed.

Lemma vsumE v : np.vsum v = \sum_(x <- v) x.
Proof. by elim: v => [|x v IH]; rewrite ?big_nil ?big_cons //= IH. Qed.

Lemma vsum_mkseq (f : nat -> F) n :
  np.vsum (mkseq f n) = \sum_(0 <= i < n) f i.
Proof. by rewrite vsumE /mkseq big_map /index_iota subn0. Qed.

Lemma sum_mkmx (f : nat -> nat -> F) r c :
  np.sum (np.mkmx r c f) = \sum_(0 <= i < r) \sum_(0 <= j < c) f i j.
Proof.
rewrite /np.sum vsumE big_flatten /= /np.mkmx /mkseq big_map /index_iota subn0.
by apply: eq_bigr => i _; rewrite big_map subn0.
Qed.

End ArrayLemmas.

Section Shapes.
Variable F : fieldType.
Implicit Types (A B : seq (seq F)) (u v : seq F).

Lemma ncols_shape A r c : np.has_shape r c A -> (0 < r)%N -> np.ncols A = c.
Proof.
case/andP => /eqP <-; case: A => [|row A] //= /andP [/eqP sz_row _] _.
by rewrite /np.ncols.
Qed.

Lemma size_row_shape A r c i :
  np.has_shape r c A -> (i < r)%N -> size (nth [::] A i) = c.
Proof.
case/andP => /eqP <- /allP sz_row lt_i.
by apply/eqP/sz_row/mem_nth.
Qed.

Lemma getitem2_shape A r c i j :
  np.has_shape r c A -> (i < r)%N -> (j < c)%N ->
  np.getitem2 A i j = Ok (np.entry A i j).
Proof.
move=> shA lt_i lt_j; have sz_A : size A = r by case/andP: shA => /eqP.
rewrite /np.getitem2 (getitem_nth [::]) ?sz_A //=.
by rewrite (getitem_nth (0 : F)) ?(size_row_shape shA).
Qed.

Lemma getcol_shape A r c j :
  np.has_shape r c A -> (0 < r)%N -> (j < c)%N ->
  np.getcol A j = Ok (mkseq (fun s => np.entry A s j) r).
Proof.
move=> shA lt_r lt_j; rewrite /np.getcol (ncols_shape shA) // lt_j.
congr Ok; case/andP: shA => /eqP sz_A _.
apply: (@eq_from_nth _ 0); first by rewrite size_map size_mkseq.
move=> s; rewrite size_map => lt_s.
by rewrite (nth_map [::]) // nth_mkseq // -sz_A.
Qed.

Lemma valterm_mkmx (val : seq F) :
  valterm val = np.mkmx (size val) (size val) (fun tau sigma => kernel val sigma tau).
Proof.
rewrite /valterm tile_mkmx transpose_mkmx /np.subtract /np.add /np.vadd.
rewrite !map2_mkmx /np.true_divide map2_mkmx /np.zero_nonfinite map_mkmx.
apply: eq_in_mkmx => tau sigma _ _.
by rewrite /np.divide /kernel; case: ifP.
Qed.

End Shapes.

Section Flux.
Variable F : fieldType.
Implicit Types (val co vi vj : seq F) (vec coeff K : seq (seq F)).

Lemma sum_termArr val co vi vj (k : F) :
  size co = size val -> size vi = size val -> size vj = size val ->
  np.sum (np.multiply (np.multiply (np.multiply (np.multiply
            (np.scale k (np.tile co (size val)))
            (np.transpose (np.tile co (size val))))
            (np.tile vi (size val)))
            (np.transpose (np.tile vj (size val))))
            (valterm val))
  = \sum_(0 <= sigma < size val) \sum_(0 <= tau < size val)
      k * nth 0 co sigma * nth 0 co tau * nth 0 vi sigma * nth 0 vj tau
      * kernel val sigma tau.
Proof.
move=> sz_co sz_vi sz_vj.
rewrite !tile_mkmx sz_co sz_vi sz_vj !transpose_mkmx valterm_mkmx.
rewrite /np.scale map_mkmx /np.multiply !map2_mkmx sum_mkmx.
by rewrite exchange_big.
Qed.

Lemma wf_fluxP i j dim val vec coeff K dl :
  wf_flux i j dim val vec coeff K dl ->
  let n := size val in
  let N := (n %/ 2)%N in
  [/\ n = (2 * N)%N, np.has_shape n n vec, np.has_shape n N coeff
    & np.has_shape N N K]
  /\ [/\ (3 * i + dim <= N)%N, (3 * j + dim <= N)%N, (1 < size dl)%N
       & forall d, d \in nth [::] dl 1 -> (3 * d + 3 <= N)%N].
Proof.
case/and5P => /eqP Hn Hvec Hco HK /and4P [Hi Hj Hdl /allP Hd].
by split; split.
Qed.


Lemma for_range_sum (R : nzRingType) (n : nat) (body : nat -> R -> result R)
    (f : nat -> R) (acc : R) :
  (forall x a, (x < n)%N -> body x a = Ok (a + f x)) ->
  for_ (range n) body acc = Ok (acc + \sum_(0 <= x < n) f x).
Proof.
move=> Hb; rewrite /index_iota subn0; apply: for_sum => x a.
by rewrite mem_iota add0n /= => /Hb.
Qed.

Lemma for_range_sum0 (R : nzRingType) (n : nat) (body : nat -> R -> result R)
    (f : nat -> R) :
  (forall x a, (x < n)%N -> body x a = Ok (a + f x)) ->
  for_ (range n) body 0 = Ok (\sum_(0 <= x < n) f x).
Proof. by move=> /for_range_sum ->; rewrite add0r. Qed.

Lemma idx_lt (a x d N : nat) : (x < d)%N -> (a + d <= N)%N -> (a + x < N)%N.
Proof. by move=> lt_x; apply: leq_trans; rewrite ltn_add2l. Qed.

Lemma calculate_power_closed i j dim val vec coeff K dl :
  wf_flux i j dim val vec coeff K dl ->
  _calculate_power i j dim val vec coeff K dl
  = Ok (flux_formula i j dim val vec coeff K (nth [::] dl 1)).
Proof.
move=> /wf_fluxP /= [[Hn Hvec Hco HK] [Hi Hj Hdl Hd]].
have le_Nn : ((size val) %/ 2 <= size val)%N by exact: leq_div.
rewrite /_calculate_power (getitem_nth [::]) //= /flux_formula.
apply: for_range_sum0 => idim a lt_idim.
apply: for_range_sum => jdim b lt_jdim.
have lt_i := idx_lt lt_idim Hi; have lt_j := idx_lt lt_jdim Hj.
have sz_vec : size vec = size val by case/andP: Hvec => /eqP.
have lt_in := leq_trans lt_i le_Nn; have lt_jn := leq_trans lt_j le_Nn.
rewrite !(getitem_nth [::]) ?sz_vec //=.
apply: for_sum => d c /Hd Hd3.
have lt_N : (0 < size val %/ 2)%N by apply: leq_trans Hd3; rewrite addnS.
have lt_n : (0 < size val)%N by apply: leq_trans le_Nn.
have lt_d0 : (3 * d < size val %/ 2)%N by rewrite -[(3 * d)%N]addn0 (idx_lt _ Hd3).
have lt_d1 : (3 * d + 1 < size val %/ 2)%N by rewrite (idx_lt _ Hd3).
have lt_d2 : (3 * d + 2 < size val %/ 2)%N by rewrite (idx_lt _ Hd3).
rewrite !(getcol_shape Hco) //= (getitem2_shape HK) //=; congr (Ok (_ + _)).
rewrite /np.vadd !map2_mkseq sum_termArr ?size_mkseq ?(size_row_shape Hvec) //.
apply: eq_big_nat => sigma /andP [_ lt_s].
apply: eq_big_nat => tau /andP [_ lt_t].
by rewrite !nth_mkseq.
Qed.


Lemma kernel_antisym val sigma tau :
  kernel val tau sigma = - kernel val sigma tau.
Proof.
rewrite /kernel [nth 0 val tau + _]addrC; case: ifP => _; first by rewrite oppr0.
by rewrite -mulNr opprB.
Qed.

Lemma flux_term_swap val vec coeff K i j idim jdim d sigma tau :
  (forall a b, np.entry K a b = np.entry K b a) ->
  flux_term val vec coeff K j i idim jdim d sigma tau
  = - flux_term val vec coeff K i j jdim idim d tau sigma.
Proof.
move=> symK; rewrite /flux_term (kernel_antisym val tau sigma) mulrN symK.
congr (- _); rewrite -!mulrA; congr (_ * _).
by rewrite mulrCA; congr (_ * (_ * _)); rewrite mulrCA.
Qed.

Lemma flux_formula_swap i j dim val vec coeff K driver1 :
  (forall a b, np.entry K a b = np.entry K b a) ->
  flux_formula j i dim val vec coeff K driver1
  = - flux_formula i j dim val vec coeff K driver1.
Proof.
move=> symK; rewrite /flux_formula exchange_big /= -sumrN.
apply: eq_bigr => idim _; rewrite -sumrN.
apply: eq_bigr => jdim _; rewrite -sumrN.
apply: eq_bigr => d _; rewrite exchange_big /= -sumrN.
apply: eq_bigr => sigma _; rewrite -sumrN.
by apply: eq_bigr => tau _; apply: flux_term_swap.
Qed.

Lemma for_xsum (A : eqType) (s : seq A) (body : A -> option F -> result (option F))
    (f : A -> F) (acc : F) :
  (forall x a, x \in s -> body x (Some a) = Ok (Some (a + f x))) ->
  for_ s body (Some acc) = Ok (Some (acc + \sum_(x <- s) f x)).
Proof.
elim: s acc => [|x s IH] acc Hb; first by rewrite big_nil addr0.
have Hs y a : y \in s -> body y (Some a) = Ok (Some (a + f y)).
  by move=> y_s; apply: Hb; rewrite in_cons y_s orbT.
by rewrite /= Hb ?mem_head //= (IH _ Hs) big_cons addrA.
Qed.

Lemma for_range_xsum (n : nat) (body : nat -> option F -> result (option F))
    (f : nat -> F) (acc : F) :
  (forall x a, (x < n)%N -> body x (Some a) = Ok (Some (a + f x))) ->
  for_ (range n) body (Some acc) = Ok (Some (acc + \sum_(0 <= x < n) f x)).
Proof.
move=> Hb; rewrite /index_iota subn0; apply: for_xsum => x a.
by rewrite mem_iota add0n /= => /Hb.
Qed.

Lemma for_range_xsum0 (n : nat) (body : nat -> option F -> result (option F))
    (f : nat -> F) :
  (forall x a, (x < n)%N -> body x (Some a) = Ok (Some (a + f x))) ->
  for_ (range n) body (Some 0) = Ok (Some (\sum_(0 <= x < n) f x)).
Proof. by move=> /for_range_xsum ->; rewrite add0r. Qed.

Lemma has_shape_take (A : seq (seq F)) r c k :
  np.has_shape r c A -> (k <= r)%N -> np.has_shape k c (take k A).
Proof.
case/andP => /eqP sz_A /allP sz_row le_k.
rewrite /np.has_shape size_take sz_A.
have -> : (if (k < r)%N then k else r) = k.
  by case: ltnP => // le_r; apply/eqP; rewrite eqn_leq le_r le_k.
rewrite eqxx /=; apply/allP => row /mem_take; exact: sz_row.
Qed.

Lemma calculate_power_loop_closed fp i j dim val vec coeff K dl :
  (forall sigma tau, (sigma < size val)%N -> (tau < size val)%N ->
     nth 0 val sigma + nth 0 val tau != 0) ->
  wf_flux i j dim val vec coeff K dl ->
  _calculate_power_loop fp i j dim val vec coeff K dl
  = Ok (Some (flux_formula i j dim val vec coeff K (nth [::] dl 1))).
Proof.
move=> Hval /wf_fluxP /= [[Hn Hvec Hco HK] [Hi Hj Hdl Hd]].
have le_Nn : ((size val) %/ 2 <= size val)%N by exact: leq_div.
have Htake := has_shape_take Hvec le_Nn.
rewrite /_calculate_power_loop (getitem_nth [::]) //= /flux_formula -Hn.
apply: for_range_xsum0 => idim a lt_idim.
apply: for_range_xsum => jdim b lt_jdim.
have lt_i := idx_lt lt_idim Hi; have lt_j := idx_lt lt_jdim Hj.
apply: for_xsum => d c /Hd Hd3.
have lt_d0 : (3 * d < size val %/ 2)%N by rewrite -[(3 * d)%N]addn0 (idx_lt _ Hd3).
have lt_d1 : (3 * d + 1 < size val %/ 2)%N by rewrite (idx_lt _ Hd3).
have lt_d2 : (3 * d + 2 < size val %/ 2)%N by rewrite (idx_lt _ Hd3).
rewrite (@for_range_xsum0 _ _ (fun sigma => \sum_(0 <= tau < size val)
  flux_term val vec coeff K i j idim jdim d sigma tau)) //=.
move=> sigma t lt_s; rewrite !(getitem2_shape Hco) //=.
apply: for_range_xsum => tau u lt_t.
rewrite !(getitem2_shape Hco) //= (getitem2_shape HK) //=.
rewrite !(getitem2_shape Htake) //= !(getitem_nth 0) //=.
rewrite /np.divide (negbTE (Hval _ _ lt_s lt_t)) /=.
congr (Ok (Some (_ + _))).
rewrite /flux_term /cosum /kernel (negbTE (Hval _ _ lt_s lt_t)).
rewrite /np.entry !nth_take // !mulrA; congr (_ * _ * _ * _ * _ * _).
by rewrite addrC addrA.
Qed.

End Flux.

(** ** The two matrix builders and the entry point *)

Section Builders.
Variable F : fieldType.
Implicit Types (m v : seq F) (A : seq (seq F)).

Lemma repeat_cons (T : Type) (x : T) (a : seq T) k :
  np.repeat (x :: a) k = nseq k x ++ np.repeat a k.
Proof. by []. Qed.

Lemma size_repeat (T : Type) (a : seq T) k : size (np.repeat a k) = (k * size a)%N.
Proof.
elim: a => [|x a IH]; first by rewrite muln0.
by rewrite repeat_cons size_cat size_nseq IH mulnS.
Qed.

Lemma nth_repeat m k a c :
  (a < size m)%N -> (c < k)%N -> nth 0 (np.repeat m k) (k * a + c) = nth 0 m a.
Proof.
elim: m a => [|x m IH] [|a] //= lt_a lt_c; rewrite repeat_cons nth_cat size_nseq.
  by rewrite muln0 add0n lt_c nth_nseq lt_c.
rewrite mulnS -addnA ltnNge leq_addr /= addKn.
exact: IH.
Qed.

Lemma diag_mkmx v :
  np.diag v = np.mkmx (size v) (size v) (fun i j => if i == j then nth 0 v i else 0).
Proof. by []. Qed.

Lemma entry_default A r c :
  ~~ ((r < size A)%N && (c < size (nth [::] A r))%N) -> np.entry A r c = 0.
Proof.
rewrite negb_and -!leqNgt /np.entry => /orP [le_r|le_c].
  by rewrite (nth_default _ le_r) nth_nil.
by rewrite nth_default.
Qed.

(** C9.  The mass matrix [np.diag(np.repeat(m, dim))] is a square array
    of side [dim * len(m)]; the mass [m[a]] stands at the [dim] consecutive
    diagonal positions [dim * a], ..., [dim * a + dim - 1], and every entry
    off the diagonal is zero. *)
Theorem mass_matrix_diagonal m dim :
  let M := np.diag (np.repeat m dim) in
  [/\ np.has_shape (dim * size m) (dim * size m) M,
      forall a c, (a < size m)%N -> (c < dim)%N ->
        np.entry M (dim * a + c) (dim * a + c) = nth 0 m a
    & forall r c, r != c -> np.entry M r c = 0].
Proof.
rewrite /= diag_mkmx size_repeat; split; first exact: has_shape_mkmx.
  move=> a c lt_a lt_c.
  have lt_r : (dim * a + c < dim * size m)%N.
    apply: (@leq_trans (dim * a.+1)); first by rewrite mulnS addnC ltn_add2r.
    by rewrite leq_mul2l lt_a orbT.
  by rewrite entry_mkmx // eqxx nth_repeat.
move=> r c ne_rc.
case lt_r: (r < dim * size m)%N; last first.
  by rewrite entry_default // size_mkmx lt_r.
case lt_c: (c < dim * size m)%N; last first.
  by rewrite entry_default // size_mkmx lt_r /np.mkmx nth_mkseq // size_mkseq lt_c.
by rewrite entry_mkmx // (negbTE ne_rc).
Qed.


Lemma size_zeros r c : size (np.zeros F r c) = r.
Proof. by rewrite size_nseq. Qed.

Lemma size_identity n : size (np.identity F n) = n.
Proof. by rewrite size_mkseq. Qed.

Lemma for_inv (A S : Type) (P : S -> Prop) (s : seq A)
    (body : A -> S -> result S) (acc r : S) :
  (forall x a a', P a -> body x a = Ok a' -> P a') ->
  P acc -> for_ s body acc = Ok r -> P r.
Proof.
move=> Hb; elim: s acc => [|x s IH] acc Pacc /=; first by case=> <-.
case Eb: (body x acc) => [a'|e] //=.
by apply: IH; apply: Hb Eb.
Qed.

Lemma size_setitem2 A r c (x : F) A' :
  np.setitem2 A r c x = Ok A' -> size A' = size A.
Proof.
rewrite /np.setitem2; case: ifP => // /andP [lt_r _] [<-].
by rewrite size_set_nth; apply/maxn_idPr.
Qed.

Lemma size_calculate_gamma_mat dim N (gamma : F) drivers g :
  _calculate_gamma_mat dim N gamma drivers = Ok g -> size g = (dim * N)%N.
Proof.
rewrite /_calculate_gamma_mat; case: (np.hstack drivers) => [ds|e] //=.
pose P (a : seq (seq F)) := size a = (dim * N)%N.
apply: (@for_inv _ _ P); last by rewrite /P size_nseq.
move=> d a a' sz_a; apply: (@for_inv _ _ P) => // i b b' sz_b.
by move/size_setitem2; rewrite /P => ->.
Qed.

Variable eig : seq (seq F) -> seq (seq F) -> result (seq F * seq (seq F)).
Variable solve : seq (seq F) -> seq (seq F) -> result (seq (seq F)).

(** C2 (amended).  When [len(k)] is not a multiple of [len(m)], [kappa]
    never returns a value: the division raises [ZeroDivisionError] for an
    empty [m]; otherwise an exception of the damping matrix builder
    propagates, and when the builder completes, the eigensolver's
    [np.concatenate((K, G), axis=1)] raises the shape-mismatch
    [ValueError], since [G] has [(len(k)//len(m)) * len(m)] rows and [K]
    has [len(k)]. *)
Theorem kappa_dimension_mismatch m (k : seq (seq F)) drivers crossings gamma :
  ~~ (size m %| size k)%N ->
  kappa eig solve m k drivers crossings gamma
  = (dim <- floordiv (size k) (size m) ;;
     g <- _calculate_gamma_mat dim (size m) gamma drivers ;;
     Raise ValueError).
Proof.
rewrite dvdn_eq /kappa /floordiv => ndiv.
case: ifP => //= _.
case Eg: (_calculate_gamma_mat _ _ _ _) => [g|e] //=.
rewrite /_calculate_thermal_evec /np.concatenate1 size_zeros size_identity.
rewrite eqxx /=.
by rewrite (size_calculate_gamma_mat Eg) eq_sym (negbTE ndiv).
Qed.

End Builders.

(** ** The eigenproblem and the coefficient system *)

Section Blocks.
Variable F : fieldType.
Implicit Types (K G M A B : seq (seq F)) (val : seq F).

Lemma mkseq_cat (T : Type) (x0 : T) (f g : nat -> T) n1 n2 :
  mkseq f n1 ++ mkseq g n2
  = mkseq (fun i => if (i < n1)%N then f i else g (i - n1)%N) (n1 + n2).
Proof.
apply: (@eq_from_nth _ x0); first by rewrite size_cat !size_mkseq.
move=> i; rewrite size_cat !size_mkseq => lt_i.
rewrite nth_cat size_mkseq [RHS]nth_mkseq //; case: ltnP => lt_n1.
  by rewrite nth_mkseq.
by rewrite nth_mkseq // ltn_subLR.
Qed.

Lemma zeros_mkmx r c : np.zeros F r c = np.mkmx r c (fun _ _ => 0).
Proof.
rewrite /np.zeros /np.mkmx.
apply: (@eq_from_nth _ [::]); first by rewrite size_nseq size_mkseq.
move=> i; rewrite size_nseq => lt_i; rewrite nth_nseq lt_i nth_mkseq //.
apply: (@eq_from_nth _ 0); first by rewrite size_nseq size_mkseq.
by move=> j; rewrite size_nseq => lt_j; rewrite nth_nseq lt_j nth_mkseq.
Qed.

Lemma ones_mkmx r c : np.ones F r c = np.mkmx r c (fun _ _ => 1).
Proof.
rewrite /np.ones /np.mkmx.
apply: (@eq_from_nth _ [::]); first by rewrite size_nseq size_mkseq.
move=> i; rewrite size_nseq => lt_i; rewrite nth_nseq lt_i nth_mkseq //.
apply: (@eq_from_nth _ 0); first by rewrite size_nseq size_mkseq.
by move=> j; rewrite size_nseq => lt_j; rewrite nth_nseq lt_j nth_mkseq.
Qed.

Lemma identity_mkmx n : np.identity F n = np.mkmx n n (@delta F).
Proof. by []. Qed.

Lemma concatenate1_mkmx (f g : nat -> nat -> F) r c1 c2 :
  np.concatenate1 (np.mkmx r c1 f) (np.mkmx r c2 g)
  = Ok (np.mkmx r (c1 + c2)
          (fun i j => if (j < c1)%N then f i j else g i (j - c1)%N)).
Proof.
rewrite /np.concatenate1 !size_mkmx eqxx; congr Ok.
rewrite /np.mkmx /mkseq zip_map -map_comp; apply: eq_map => i /=.
exact: (mkseq_cat 0).
Qed.

Lemma mkmx_cat (f g : nat -> nat -> F) r1 r2 c :
  np.mkmx r1 c f ++ np.mkmx r2 c g
  = np.mkmx (r1 + r2) c
      (fun i j => if (i < r1)%N then f i j else g (i - r1)%N j).
Proof.
rewrite /np.mkmx (mkseq_cat [::]).
by apply: eq_in_mkseq => i _; case: ifP.
Qed.

Lemma dot_mkmx A (g : nat -> nat -> F) r k c :
  np.has_shape r k A -> (0 < k)%N ->
  np.dot A (np.mkmx k c g)
  = np.mkmx r c (fun i j => \sum_(0 <= l < k) np.entry A i l * g l j).
Proof.
move=> shA lt_k; have sz_A : size A = r by case/andP: shA => /eqP.
rewrite /np.dot size_mkmx ncols_mkmx //.
apply: (@eq_from_nth _ [::]); first by rewrite size_map size_mkmx.
move=> i; rewrite size_map sz_A => lt_i.
rewrite (nth_map [::]) ?sz_A // /np.mkmx nth_mkseq //.
apply: eq_in_mkseq => j lt_j; rewrite vsum_mkseq.
apply: eq_big_nat => l /andP [_ lt_l].
by rewrite -/(np.mkmx k c g) entry_mkmx.
Qed.

Lemma take_mkmx A r c k :
  np.has_shape r c A -> (k <= r)%N -> take k A = np.mkmx k c (np.entry A).
Proof.
move=> shA le_k; rewrite (mkmx_of_shape (has_shape_take shA le_k)).
by apply: eq_in_mkmx => i j lt_i _; rewrite /np.entry nth_take.
Qed.

Lemma concatenate0_mkmx (f g : nat -> nat -> F) r c :
  np.concatenate0 (np.mkmx r c f) (np.mkmx r c g)
  = Ok (np.mkmx (r + r) c
          (fun i j => if (i < r)%N then f i j else g (i - r)%N j)).
Proof.
rewrite /np.concatenate0.
have -> : np.ncols (np.mkmx r c f) = np.ncols (np.mkmx r c g).
  by case: r => [|r] //; rewrite !ncols_mkmx.
by rewrite eqxx mkmx_cat.
Qed.

Variable eig : seq (seq F) -> seq (seq F) -> result (seq F * seq (seq F)).
Variable solve : seq (seq F) -> seq (seq F) -> result (seq (seq F)).

Lemma calculate_thermal_evec_blocks K G M :
  let N := size M in
  np.has_shape N N K -> np.has_shape N N G -> np.has_shape N N M ->
  _calculate_thermal_evec eig K G M
  = eig (companion_left N K G) (companion_right N M).
Proof.
move=> N HK HG HM; rewrite /_calculate_thermal_evec -/N.
rewrite zeros_mkmx identity_mkmx concatenate1_mkmx /=.
have -> : np.concatenate1 K G
          = Ok (np.mkmx N (N + N) (fun i j =>
                  if (j < N)%N then np.entry K i j else np.entry G i (j - N)%N)).
  by rewrite {1}(mkmx_of_shape HK) {1}(mkmx_of_shape HG) concatenate1_mkmx.
rewrite /= concatenate0_mkmx /= concatenate1_mkmx /=.
have -> : np.negative M = np.mkmx N N (fun r c => - np.entry M r c).
  by rewrite {1}(mkmx_of_shape HM) /np.negative map_mkmx.
by rewrite concatenate1_mkmx /= concatenate0_mkmx /= addnn -mul2n.
Qed.


Lemma coeff_weightE N val M G r c :
  \sum_(0 <= l < N) np.entry M r l * nth 0 val c
  + \sum_(0 <= l < N) np.entry G r l * 1
  = coeff_weight N val M G r c.
Proof.
rewrite /coeff_weight !vsum_mkseq mulr_suml; congr (_ + _).
by apply: eq_bigr => l _; rewrite mulr1.
Qed.

Lemma coeff_lhs_cat N val vec M G :
  coeff_lhs N val vec M G
  = np.mkmx N (2 * N) (np.entry vec)
    ++ np.mkmx N (2 * N)
         (fun r c => np.entry vec r c * coeff_weight N val M G r c).
Proof. by rewrite mkmx_cat addnn -mul2n. Qed.

Lemma calculate_coeff_system N val vec M G :
  np.has_shape (2 * N) (2 * N) vec -> size val = (2 * N)%N ->
  np.has_shape N N M -> np.has_shape N N G ->
  _calculate_coeff solve val vec M G
  = solve (coeff_lhs N val vec M G) (coeff_rhs F N).
Proof.
move=> Hvec sz_val HM HG.
have sz_vec : size vec = (2 * N)%N by case/andP: Hvec => /eqP.
have le_N : (N <= 2 * N)%N by rewrite mul2n -addnn leq_addr.
rewrite /_calculate_coeff sz_vec mulKn // /np.setrows take0 cat0s.
have Etop : take N vec = np.mkmx N (2 * N) (np.entry vec).
  exact: take_mkmx Hvec le_N.
have sz_top : size (take N vec) = N by rewrite Etop size_mkmx.
have sz_A1 : size (take N vec ++ drop N (np.zeros F (2 * N) (2 * N))) = (2 * N)%N.
  by rewrite size_cat sz_top size_drop size_zeros mul2n -addnn addnK.
rewrite (take_size_cat _ sz_top) drop_oversize ?sz_A1 //.
rewrite cats0 zeros_mkmx identity_mkmx concatenate0_mkmx /= addnn -mul2n.
congr (solve _ _); rewrite coeff_lhs_cat.
congr (_ ++ _); first exact: Etop.
have [N0|lt_N] := posnP N.
  by rewrite N0 take0 in HM HG *; case: M HM => //; case: G HG.
rewrite Etop tile_mkmx sz_val ones_mkmx.
rewrite (@dot_mkmx _ _ _ _ _ HM lt_N) (@dot_mkmx _ _ _ _ _ HG lt_N).
rewrite /np.add /np.vadd /np.multiply !map2_mkmx.
by apply: eq_in_mkmx => i j _ _; rewrite coeff_weightE.
Qed.

End Blocks.

(** ** The flux integrator and the aggregation *)

Section Claims.
Variable F : fieldType.
Implicit Types (K G M A B vec coeff : seq (seq F)) (val m : seq F).

Lemma entry_oob A r c i j :
  np.has_shape r c A -> ~~ ((i < r)%N && (j < c)%N) -> np.entry A i j = 0.
Proof.
move=> shA oob; apply: entry_default; apply: contra oob => /andP [lt_i lt_j].
have sz_A : size A = r by case/andP: shA => /eqP.
by rewrite -sz_A lt_i -(size_row_shape shA (i := i)) -?sz_A.
Qed.

Lemma symmetricP K N :
  np.has_shape N N K -> symmetric K ->
  forall a b, np.entry K a b = np.entry K b a.
Proof.
move=> shK /eqP symK a b.
have sz_K : size K = N by case/andP: shK => /eqP.
case in_ab: ((a < N)%N && (b < N)%N); last first.
  by rewrite !(entry_oob shK) ?in_ab // andbC in_ab.
case/andP: in_ab => lt_a lt_b.
have lt_N : (0 < N)%N by apply: leq_trans lt_a.
rewrite -{1}symK /np.transpose sz_K (ncols_shape shK) //.
by rewrite -/(np.mkmx N N (fun c r => np.entry K r c)) entry_mkmx.
Qed.

Lemma no_resonanceP val :
  no_resonance val ->
  forall sigma tau, (sigma < size val)%N -> (tau < size val)%N ->
    nth 0 val sigma + nth 0 val tau != 0.
Proof.
move=> /allP Hval sigma tau lt_s lt_t.
by have /allP := Hval _ (mem_nth 0 lt_s); apply; apply: mem_nth.
Qed.

Lemma wf_flux_swap i j dim val vec coeff K dl :
  wf_flux i j dim val vec coeff K dl = wf_flux j i dim val vec coeff K dl.
Proof.
rewrite /wf_flux; do 4![congr (_ && _)].
by rewrite andbCA.
Qed.


Variable eig : seq (seq F) -> seq (seq F) -> result (seq F * seq (seq F)).
Variable solve : seq (seq F) -> seq (seq F) -> result (seq (seq F)).

(** The accumulation of [kappa] over the crossings. *)
Lemma for_crossings_shift (power : nat * nat -> result F)
    (crossings : seq (nat * nat)) (a b : F) :
  for_ crossings (fun c acc => p <- power c ;; Ok (acc + p)) (a + b)
  = (r <- for_ crossings (fun c acc => p <- power c ;; Ok (acc + p)) b ;;
     Ok (a + r)).
Proof.
elim: crossings b => [|c cs IH] b //=.
by case: (power c) => [p|e] //=; rewrite -addrA IH.
Qed.

Lemma for_crossings_cat (power : nat * nat -> result F)
    (c1 c2 : seq (nat * nat)) :
  for_ (c1 ++ c2) (fun c acc => p <- power c ;; Ok (acc + p)) 0
  = radd (for_ c1 (fun c acc => p <- power c ;; Ok (acc + p)) 0)
         (for_ c2 (fun c acc => p <- power c ;; Ok (acc + p)) 0).
Proof.
rewrite for_cat /radd; case: (for_ c1 _ 0) => [a|e] //=.
by rewrite -[a in LHS]addr0 for_crossings_shift.
Qed.

Lemma radd_raise (e : exn) (y : result F) : radd (Raise e) y = Raise e.
Proof. by []. Qed.

Lemma kappa_cat m k drivers c1 c2 gamma :
  kappa eig solve m k drivers (c1 ++ c2) gamma
  = radd (kappa eig solve m k drivers c1 gamma)
         (kappa eig solve m k drivers c2 gamma).
Proof.
rewrite /kappa; case: (floordiv _ _) => [dim|e] //=.
case: (_calculate_gamma_mat _ _ _ _) => [g|e] //=.
case: (_calculate_thermal_evec _ _ _ _) => [[val vec]|e] //=.
case: (_calculate_coeff _ _ _ _ _) => [coeff|e] //=.
exact: (for_crossings_cat
          (fun c => _calculate_power c.1 c.2 dim val vec coeff k drivers)).
Qed.

(** C8.  Once the modes and the coefficients are computed, the conductivity
    returned by [kappa] is the plain sum of the per-crossing fluxes, in the
    order of the crossings and without normalisation; it is [0] for an
    empty list of crossings and additive over concatenation. *)
Theorem kappa_sum_of_crossings m k drivers gamma dim g val vec coeff :
  floordiv (size k) (size m) = Ok dim ->
  _calculate_gamma_mat dim (size m) gamma drivers = Ok g ->
  _calculate_thermal_evec eig k g (np.diag (np.repeat m dim)) = Ok (val, vec) ->
  _calculate_coeff solve val vec (np.diag (np.repeat m dim)) g = Ok coeff ->
  [/\ kappa eig solve m k drivers [::] gamma = Ok 0,
      forall crossings (p : nat * nat -> F),
        (forall c, c \in crossings ->
           _calculate_power c.1 c.2 dim val vec coeff k drivers = Ok (p c)) ->
        kappa eig solve m k drivers crossings gamma
        = Ok (\sum_(c <- crossings) p c)
    & forall c1 c2,
        kappa eig solve m k drivers (c1 ++ c2) gamma
        = radd (kappa eig solve m k drivers c1 gamma)
               (kappa eig solve m k drivers c2 gamma)].
Proof.
move=> Edim Eg Evec Ecoeff; split; last by move=> c1 c2; exact: kappa_cat.
  by rewrite /kappa Edim /= Eg /= Evec /= Ecoeff.
move=> crossings p Hp; rewrite /kappa Edim /= Eg /= Evec /= Ecoeff /=.
rewrite -[X in Ok X]add0r; apply: for_sum => c a c_in.
by rewrite Hp.
Qed.

(** C3.  The entry of [valterm] for the mode pair [(sigma, tau)], which
    sits in the column [sigma] and the row [tau], is the quotient
    [(val[sigma] - val[tau]) / (val[sigma] + val[tau])], replaced by zero
    when the denominator is zero; [valterm] is a total function (it never
    raises), and a pair whose eigenvalues sum to zero adds a zero term to
    the flux sum. *)
Theorem valterm_regularized val sigma tau :
  (sigma < size val)%N -> (tau < size val)%N ->
  let ls := nth 0 val sigma in
  let lt := nth 0 val tau in
  [/\ np.has_shape (size val) (size val) (valterm val),
      np.entry (valterm val) tau sigma
      = (if ls + lt == 0 then 0 else (ls - lt) / (ls + lt)),
      ls + lt = 0 -> np.entry (valterm val) tau sigma = 0
    & ls + lt = 0 ->
      forall vec coeff K i j idim jdim d,
        flux_term val vec coeff K i j idim jdim d sigma tau = 0].
Proof.
move=> lt_s lt_t /=; rewrite valterm_mkmx entry_mkmx // /kernel.
split=> //; first exact: has_shape_mkmx.
  by move=> ->; rewrite eqxx.
by move=> Hz *; rewrite /flux_term /kernel Hz eqxx mulr0.
Qed.

(** C4.  For [dim = 3] and a well-formed input, the flux through the bond
    [(i, j)] is the sum, over the pairs of components, the atoms of the
    second driver group and the pairs of modes, of the product of the
    Hessian entry, the two coefficient sums, the two eigenvector entries
    and the regularised kernel; the first driver group is never read. *)
Theorem calculate_power_formula i j val vec coeff K driverList :
  wf_flux i j 3 val vec coeff K driverList ->
  _calculate_power i j 3 val vec coeff K driverList
  = Ok (\sum_(0 <= idim < 3) \sum_(0 <= jdim < 3)
         \sum_(driver <- nth [::] driverList 1)
           \sum_(0 <= sigma < size val) \sum_(0 <= tau < size val)
             np.entry K (3 * i + idim) (3 * j + jdim)
             * cosum coeff driver sigma * cosum coeff driver tau
             * np.entry vec (3 * i + idim) sigma
             * np.entry vec (3 * j + jdim) tau
             * kernel val sigma tau)
  /\ forall group0,
       _calculate_power i j 3 val vec coeff K (set_nth [::] driverList 0 group0)
       = _calculate_power i j 3 val vec coeff K driverList.
Proof.
move=> wf; split; first exact: calculate_power_closed.
move=> group0; case/wf_fluxP: wf => _ [_ _ Hdl _].
by case: driverList Hdl => [|g0 [|g1 rest]].
Qed.

(** C5.  For a symmetric Hessian and a well-formed input, the flux at
    [(j, i)] is the opposite of the flux at [(i, j)]; the regularised
    kernel is antisymmetric. *)
Theorem calculate_power_swap i j dim val vec coeff K driverList :
  symmetric K -> wf_flux i j dim val vec coeff K driverList ->
  (forall sigma tau, kernel val tau sigma = - kernel val sigma tau)
  /\ exists p,
       _calculate_power i j dim val vec coeff K driverList = Ok p
       /\ _calculate_power j i dim val vec coeff K driverList = Ok (- p).
Proof.
move=> symK wf; split; first exact: kernel_antisym.
have [[_ _ _ HK] _] := wf_fluxP wf.
exists (flux_formula i j dim val vec coeff K (nth [::] driverList 1)).
rewrite (calculate_power_closed wf); split=> //.
rewrite calculate_power_closed -1?wf_flux_swap //.
by rewrite (@flux_formula_swap _ i j _ _ _ _ _ _ (symmetricP HK symK)).
Qed.

(** C10 (amended).  For [dim = 3], eigenvalues of which no two sum to zero
    and a well-formed input (an even number [2N] of eigenvalues with
    arrays of the matching shapes, every index inside), the nested scalar
    loops and the array computation return the same value, whatever
    numpy's error state.  Without the well-formedness the two differ: the
    loops read [2 * (len(val) // 2)] modes, the array computation
    [len(val)]. *)
Theorem calculate_power_loop_refines fp i j val vec coeff K driverList :
  no_resonance val -> wf_flux i j 3 val vec coeff K driverList ->
  exists p,
    _calculate_power_loop fp i j 3 val vec coeff K driverList = Ok (Some p)
    /\ _calculate_power i j 3 val vec coeff K driverList = Ok p.
Proof.
move=> /no_resonanceP Hval wf.
exists (flux_formula i j 3 val vec coeff K (nth [::] driverList 1)).
by rewrite calculate_power_loop_closed // calculate_power_closed.
Qed.

End Claims.

(** ** The solvers' systems and the damping matrix *)

Section Solvers.
Variable F : fieldType.
Variable eig : seq (seq F) -> seq (seq F) -> result (seq F * seq (seq F)).
Variable solve : seq (seq F) -> seq (seq F) -> result (seq (seq F)).
Implicit Types (K G M A B vec coeff : seq (seq F)) (val m : seq F).

Lemma entry_block_mx N (A B C D : nat -> nat -> F) r c :
  (r < N)%N -> (c < N)%N ->
  [/\ np.entry (block_mx N A B C D) r c = A r c,
      np.entry (block_mx N A B C D) r (N + c) = B r c,
      np.entry (block_mx N A B C D) (N + r) c = C r c
    & np.entry (block_mx N A B C D) (N + r) (N + c) = D r c].
Proof.
move=> lt_r lt_c.
have lt2 x : (x < N)%N -> (x < 2 * N)%N /\ (N + x < 2 * N)%N.
  by move=> lt_x; rewrite mul2n -addnn ltn_add2l lt_x ltn_addr.
have [r1 r2] := lt2 _ lt_r; have [c1 c2] := lt2 _ lt_c.
have ge x : (N + x < N)%N = false by rewrite ltnNge leq_addr.
by rewrite /block_mx !entry_mkmx // lt_r lt_c !ge !addKn.
Qed.

(** C7.  For [N x N] arrays [K], [G] and [M], the eigensolver builds the
    [2N x 2N] block matrices [[0, I], [K, G]] and [[I, 0], [0, -M]] and
    returns what the generalized eigenvalue routine returns on them:
    eigenpairs of the pencil whenever the routine keeps its contract. *)
Theorem calculate_thermal_evec_companion K G M :
  np.has_shape (size M) (size M) K -> np.has_shape (size M) (size M) G ->
  np.has_shape (size M) (size M) M ->
  let N := size M in
  let L := companion_left N K G in
  let R := companion_right N M in
  [/\ np.has_shape (2 * N) (2 * N) L /\ np.has_shape (2 * N) (2 * N) R,
      forall r c, (r < N)%N -> (c < N)%N ->
        [/\ np.entry L r c = 0, np.entry L r (N + c) = delta F r c,
            np.entry L (N + r) c = np.entry K r c
          & np.entry L (N + r) (N + c) = np.entry G r c],
      forall r c, (r < N)%N -> (c < N)%N ->
        [/\ np.entry R r c = delta F r c, np.entry R r (N + c) = 0,
            np.entry R (N + r) c = 0
          & np.entry R (N + r) (N + c) = - np.entry M r c],
      _calculate_thermal_evec eig K G M = eig L R
    & eig_contract eig ->
      forall w vr, _calculate_thermal_evec eig K G M = Ok (w, vr) ->
        eigenpairs L R w vr].
Proof.
move=> HK HG HM /=; have E := calculate_thermal_evec_blocks eig HK HG HM.
split=> //.
- by split; exact: has_shape_mkmx.
- by move=> r c lt_r lt_c; apply: entry_block_mx.
- by move=> r c lt_r lt_c; apply: entry_block_mx.
by move=> Heig w vr; rewrite E => /Heig.
Qed.

(** C6.  With [N = len(vec)//2], the coefficient solver builds the
    [2N x 2N] system whose upper rows are the displacement block
    [vec[:N, :]] and whose lower rows are that block weighted, entry by
    entry, by the eigenvalue of the column times the mass of the row plus
    the damping of the row; the right-hand side stacks [N] zero rows over
    the identity.  It returns what the linear solver returns, a solution
    of the system when the solver keeps its contract, and the solver's
    failure is the failure of the function. *)
Theorem calculate_coeff_linear_system N val vec M G :
  np.has_shape (2 * N) (2 * N) vec -> size val = (2 * N)%N ->
  np.has_shape N N M -> np.has_shape N N G ->
  let A := coeff_lhs N val vec M G in
  let B := coeff_rhs F N in
  [/\ (size vec %/ 2)%N = N,
      np.has_shape (2 * N) (2 * N) A /\ np.has_shape (2 * N) N B,
      forall r c, (r < N)%N -> (c < 2 * N)%N ->
        np.entry A r c = np.entry vec r c
        /\ np.entry A (N + r) c
           = np.entry vec r c
             * ((\sum_(0 <= k < N) np.entry M r k) * nth 0 val c
                + \sum_(0 <= k < N) np.entry G r k),
      forall r c, (r < N)%N -> (c < N)%N ->
        np.entry B r c = 0 /\ np.entry B (N + r) c = delta F r c
    & [/\ _calculate_coeff solve val vec M G = solve A B,
          forall e, solve A B = Raise e ->
            _calculate_coeff solve val vec M G = Raise e
        & solve_contract solve ->
          forall X, _calculate_coeff solve val vec M G = Ok X ->
            solution A B X]].
Proof.
move=> Hvec sz_val HM HG /=.
have E := calculate_coeff_system solve Hvec sz_val HM HG.
have lt2 x : (x < N)%N -> (x < 2 * N)%N /\ (N + x < 2 * N)%N.
  by move=> lt_x; rewrite mul2n -addnn ltn_add2l lt_x ltn_addr.
have ge x : (N + x < N)%N = false by rewrite ltnNge leq_addr.
split.
- by case/andP: Hvec => /eqP -> _; rewrite mulKn.
- by split; exact: has_shape_mkmx.
- move=> r c lt_r lt_c; have [r1 r2] := lt2 _ lt_r.
  by rewrite /coeff_lhs !entry_mkmx // lt_r ge addKn /coeff_weight !vsum_mkseq.
- move=> r c lt_r lt_c; have [r1 r2] := lt2 _ lt_r.
  by rewrite /coeff_rhs !entry_mkmx // lt_r ge addKn.
split=> //; first by move=> e; rewrite E.
by move=> Hsolve X; rewrite E => /Hsolve.
Qed.

(** C1.  The builder strides the diagonal by the literal 3 and not by
    [dim].  With [dim = 1], four atoms and the driven atoms 0 and 1 it
    returns the diagonal [gamma, 0, 0, gamma]: the driven atom 1 is left
    undamped and the undriven atom 3 is damped, where the specification
    asks for the diagonal [gamma, gamma, 0, 0].  With two atoms and the
    same drivers the write at index 3 is out of bounds. *)
Theorem calculate_gamma_mat_stride_three (gamma : F) :
  [/\ _calculate_gamma_mat 1 4 gamma [:: [:: 0%N]; [:: 1%N]]
      = Ok [:: [:: gamma; 0; 0; 0]; [:: 0; 0; 0; 0]; [:: 0; 0; 0; 0];
               [:: 0; 0; 0; gamma]],
      gamma_mat_spec 1 4 gamma [:: [:: 0%N]; [:: 1%N]]
      = [:: [:: gamma; 0; 0; 0]; [:: 0; gamma; 0; 0]; [:: 0; 0; 0; 0];
            [:: 0; 0; 0; 0]]
    & _calculate_gamma_mat 1 2 gamma [:: [:: 0%N]; [:: 1%N]]
      = Raise IndexError].
Proof. by split. Qed.

End Solvers.

(** ** What the damping matrix builder computes *)

Section Damping.
Variable F : fieldType.
Variable gamma : F.

Lemma eq_diag_where n (S1 S2 : pred nat) :
  (forall r, (r < n)%N -> S1 r = S2 r) ->
  diag_where n S1 gamma = diag_where n S2 gamma.
Proof. by move=> eqS; apply: eq_in_mkmx => r c lt_r _; rewrite eqS. Qed.

Lemma setitem2_diag_where n (S : pred nat) p :
  (p < n)%N ->
  np.setitem2 (diag_where n S gamma) p p gamma
  = Ok (diag_where n (fun r => S r || (r == p)) gamma).
Proof.
move=> lt_p; have lt_n : (0 < n)%N by apply: leq_trans lt_p.
rewrite /np.setitem2 size_mkmx ncols_mkmx // lt_p /=; congr Ok.
apply: (@eq_from_nth _ [::]).
  by rewrite size_set_nth !size_mkmx; apply/maxn_idPr.
move=> r; rewrite size_set_nth size_mkmx (maxn_idPr lt_p) => lt_r.
rewrite nth_set_nth /= /diag_where /np.mkmx !nth_mkseq //.
have [->|ne_rp] := eqVneq r p; last first.
  by apply: eq_in_mkseq => c _; rewrite orbF.
apply: (@eq_from_nth _ 0).
  by rewrite size_set_nth !size_mkseq; apply/maxn_idPr.
move=> c; rewrite size_set_nth size_mkseq (maxn_idPr lt_p) => lt_c.
rewrite nth_set_nth /= !nth_mkseq // orbT andbT eq_sym.
by case: (p == c).
Qed.

Lemma for_stride_diag_where n (S : pred nat) base k d :
  (base + k + d <= n)%N ->
  for_ (iota k d)
    (fun i gmat => np.setitem2 gmat (base + i) (base + i) gamma)
    (diag_where n S gamma)
  = Ok (diag_where n (fun r => S r || (base + k <= r < base + k + d)%N) gamma).
Proof.
elim: d k S => [|d IH] k S le_n /=.
  congr Ok; apply: eq_diag_where => r _.
  by rewrite addn0 [(_ <= r)%N && _]andbC ltnNge andNb orbF.
have lt_p : (base + k < n)%N.
  by apply: leq_trans le_n; rewrite addnS ltnS leq_addr.
have le_n' : (base + k.+1 + d <= n)%N by rewrite addnS addSn -addnS.
rewrite setitem2_diag_where //= IH //.
congr Ok; apply: eq_diag_where => r _; rewrite -orbA; congr (_ || _).
rewrite !addnS addSn; have [->|ne_r] := eqVneq r (base + k)%N.
  by rewrite leqnn ltnS leq_addr.
by rewrite /= [(base + k <= r)%N]leq_eqVlt eq_sym (negbTE ne_r).
Qed.

Lemma for_drivers_diag_where n dim (S : pred nat) (ds : seq nat) :
  all (fun d => 3 * d + dim <= n)%N ds ->
  for_ ds (fun driver gmat =>
    for_ (range dim) (fun i gmat =>
      np.setitem2 gmat (3 * driver + i) (3 * driver + i) gamma) gmat)
    (diag_where n S gamma)
  = Ok (diag_where n
          (fun r => S r || has (fun d => 3 * d <= r < 3 * d + dim)%N ds)
          gamma).
Proof.
elim: ds S => [|d ds IH] S /=.
  by move=> _; congr Ok; apply: eq_diag_where => r _; rewrite orbF.
case/andP=> le_d le_ds.
rewrite /range (for_stride_diag_where S (base := (3 * d)%N)) ?addn0 //=.
rewrite IH //; congr Ok; apply: eq_diag_where => r _.
by rewrite orbA.
Qed.

(** What the builder computes when no write is out of bounds: [gamma] at
    the diagonal positions [3 * idx + c], [c < dim], of the driven atoms. *)
Lemma calculate_gamma_mat_entries dim N (drivers : seq (seq nat)) :
  drivers != [::] ->
  all (fun d => 3 * d + dim <= dim * N)%N (flatten drivers) ->
  _calculate_gamma_mat dim N gamma drivers
  = Ok (diag_where (dim * N)
          (fun r => has (fun d => 3 * d <= r < 3 * d + dim)%N (flatten drivers))
          gamma).
Proof.
case: drivers => [|g0 gs] // _ Hin; rewrite /_calculate_gamma_mat /=.
have -> : np.zeros F (dim * N) (dim * N) = diag_where (dim * N) pred0 gamma.
  by rewrite zeros_mkmx; apply: eq_in_mkmx => r c _ _; rewrite andbF.
by rewrite for_drivers_diag_where.
Qed.

(** For [dim = 3] the builder meets the specification. *)
Lemma calculate_gamma_mat_dim3 N (drivers : seq (seq nat)) :
  drivers != [::] -> all (fun d => d < N)%N (flatten drivers) ->
  _calculate_gamma_mat 3 N gamma drivers
  = Ok (gamma_mat_spec 3 N gamma drivers).
Proof.
move=> ne_d Hin.
have Hin3 : all (fun d => 3 * d + 3 <= 3 * N)%N (flatten drivers).
  by apply: sub_all Hin => d lt_d; rewrite addnC -mulnS leq_mul2l.
rewrite calculate_gamma_mat_entries //.
congr Ok; apply: eq_diag_where => r _.
rewrite -has_pred1; apply: eq_has => d /=.
rewrite eq_sym eqn_leq leq_divRL // andbC [(d * 3)%N]mulnC; congr (_ && _).
rewrite -[(_ <= d)%N]ltnS ltn_divLR //.
by rewrite [(d.+1 * 3)%N]mulnC mulnS [(3 + _)%N]addnC.
Qed.

End Damping.

(** ** The theorems at work on concrete systems *)

Lemma atom_eig_contract : eig_contract atom_eig.
Proof.
move=> a b w vr; rewrite /atom_eig.
case: ifP => // /andP [/eqP -> /eqP ->] [<- <-].
by vm_compute.
Qed.

Lemma atom_solve_contract : solve_contract atom_solve.
Proof.
move=> a b X; rewrite /atom_solve.
case: ifP => // /andP [/eqP -> /eqP ->] [<-].
by vm_compute.
Qed.

Lemma duo_eig_contract : eig_contract duo_eig.
Proof.
move=> a b w vr; rewrite /duo_eig.
case: ifP => // /andP [/eqP -> /eqP ->] [<- <-].
by vm_compute.
Qed.

Lemma duo_solve_contract : solve_contract duo_solve.
Proof.
move=> a b X; rewrite /duo_solve.
case: ifP => // /andP [/eqP -> /eqP ->] [<-].
by vm_compute.
Qed.

Lemma kappa_mismatch_other_errors :
  let m0 : seq rat := [::] in
  let k1 : seq (seq rat) := [:: [:: 1]] in
  let m2 : seq rat := [:: 1; 1] in
  let k3 : seq (seq rat) := np.zeros rat 3 3 in
  let drivers := [:: [:: 0%N]; [:: 1%N]] in
  [/\ ~~ (size m0 %| size k1)%N,
      kappa no_eig no_solve m0 k1 drivers [::] 10%:R = Raise ZeroDivisionError,
      ~~ (size m2 %| size k3)%N
    & kappa no_eig no_solve m2 k3 drivers [::] 10%:R = Raise IndexError].
Proof. by split. Qed.

Lemma kappa_dimension_mismatch_witness :
  let m2 : seq rat := [:: 1; 1] in
  let k3 : seq (seq rat) := np.zeros rat 3 3 in
  ~~ (size m2 %| size k3)%N
  /\ kappa no_eig no_solve m2 k3 [:: [:: 0%N]; [:: 0%N]] [::] 10%:R
     = Raise ValueError.
Proof.
move=> m2 k3; have ndiv : ~~ (size m2 %| size k3)%N by [].
split; first exact: ndiv.
exact: (kappa_dimension_mismatch no_eig no_solve _ _ _ ndiv).
Defined.

Lemma valterm_regularized_witness :
  let val : seq rat := [:: 1; -1; 2%:R] in
  [/\ (0 < size val)%N, (1 < size val)%N, nth 0 val 0 + nth 0 val 1 = 0
    & np.entry (valterm val) 1 0 = 0].
Proof.
have Hz : nth 0 [:: 1; -1; 2%:R] 0 + nth 0 [:: 1; -1; 2%:R] 1 = 0 :> rat.
  by apply/eqP.
have [_ _ H _] := @valterm_regularized rat [:: 1; -1; 2%:R] 0 1 isT isT.
by split; [ | | exact: Hz | exact: (H Hz)].
Defined.

Lemma calculate_power_formula_witness :
  wf_flux 0 1 3 pair_val pair_vec pair_coeff pair_k pair_drivers
  /\ exists p,
       _calculate_power 0 1 3 pair_val pair_vec pair_coeff pair_k pair_drivers
       = Ok p.
Proof.
have wf : wf_flux 0 1 3 pair_val pair_vec pair_coeff pair_k pair_drivers.
  by vm_compute.
split; first exact: wf.
have [H _] := calculate_power_formula wf.
by eexists; exact: H.
Defined.

Lemma calculate_power_swap_witness :
  [/\ symmetric pair_k,
      wf_flux 0 1 3 pair_val pair_vec pair_coeff pair_k pair_drivers
    & exists p,
        _calculate_power 0 1 3 pair_val pair_vec pair_coeff pair_k pair_drivers
        = Ok p
        /\ _calculate_power 1 0 3 pair_val pair_vec pair_coeff pair_k
             pair_drivers
           = Ok (- p)].
Proof.
have sym : symmetric pair_k by vm_compute.
have wf : wf_flux 0 1 3 pair_val pair_vec pair_coeff pair_k pair_drivers.
  by vm_compute.
split; [exact: sym | exact: wf | ].
by have [_] := calculate_power_swap sym wf.
Defined.

Lemma calculate_power_loop_refines_witness :
  [/\ no_resonance pair_val,
      wf_flux 0 1 3 pair_val pair_vec pair_coeff pair_k pair_drivers
    & exists p,
        _calculate_power_loop false 0 1 3 pair_val pair_vec pair_coeff pair_k
          pair_drivers
        = Ok (Some p)
        /\ _calculate_power 0 1 3 pair_val pair_vec pair_coeff pair_k
             pair_drivers
           = Ok p].
Proof.
have nr : no_resonance pair_val by vm_compute.
have wf : wf_flux 0 1 3 pair_val pair_vec pair_coeff pair_k pair_drivers.
  by vm_compute.
split; [exact: nr | exact: wf | ].
exact: (calculate_power_loop_refines false nr wf).
Defined.

Lemma calculate_power_loop_odd_modes :
  [/\ no_resonance odd_val,
      _calculate_power 0 0 3 odd_val odd_vec odd_coeff odd_k odd_drivers
      = Ok (1 / 2%:R),
      _calculate_power_loop false 0 0 3 odd_val odd_vec odd_coeff odd_k
        odd_drivers
      = Ok (Some 0)
    & _calculate_power_loop true 0 0 3 odd_val odd_vec odd_coeff odd_k
        odd_drivers
      = Ok (Some 0)].
Proof. by split; vm_compute. Qed.

Lemma mass_matrix_diagonal_witness :
  let m : seq rat := [:: 2%:R; 5%:R] in
  [/\ (1 < size m)%N, (1 < 3)%N
    & np.entry (np.diag (np.repeat m 3)) (3 * 1 + 1) (3 * 1 + 1) = nth 0 m 1].
Proof.
have [_ H _] := @mass_matrix_diagonal rat [:: 2%:R; 5%:R] 3.
by split; [ | | exact: (H 1%N 1%N)].
Defined.

Lemma calculate_thermal_evec_companion_witness :
  [/\ np.has_shape (size atom_mass) (size atom_mass) atom_k,
      np.has_shape (size atom_mass) (size atom_mass) atom_g,
      np.has_shape (size atom_mass) (size atom_mass) atom_mass,
      eig_contract atom_eig
    & eigenpairs (companion_left 3 atom_k atom_g)
        (companion_right 3 atom_mass) atom_val atom_vec].
Proof.
have [_ _ _ E H] :=
  @calculate_thermal_evec_companion rat atom_eig atom_k atom_g atom_mass
    isT isT isT.
split; [by [] | by [] | by [] | exact: atom_eig_contract | ].
apply: (H atom_eig_contract); rewrite E.
by vm_compute.
Defined.

Lemma calculate_coeff_linear_system_witness :
  [/\ np.has_shape (2 * 3) (2 * 3) atom_vec, size atom_val = (2 * 3)%N,
      np.has_shape 3 3 atom_mass & np.has_shape 3 3 atom_g]
  /\ solve_contract atom_solve
  /\ solution (coeff_lhs 3 atom_val atom_vec atom_mass atom_g)
       (coeff_rhs rat 3) atom_coeff.
Proof.
have [_ _ _ _ [E _ H]] :=
  @calculate_coeff_linear_system rat atom_solve 3 atom_val atom_vec atom_mass
    atom_g isT (erefl _) isT isT.
split; first by split.
split; first exact: atom_solve_contract.
apply: (H atom_solve_contract); rewrite E.
by vm_compute.
Defined.

Lemma kappa_sum_of_crossings_witness :
  [/\ floordiv (size atom_k) (size atom_m) = Ok 3%N,
      _calculate_gamma_mat 3 (size atom_m) atom_gamma atom_drivers = Ok atom_g,
      _calculate_thermal_evec atom_eig atom_k atom_g
        (np.diag (np.repeat atom_m 3))
      = Ok (atom_val, atom_vec),
      _calculate_coeff atom_solve atom_val atom_vec
        (np.diag (np.repeat atom_m 3)) atom_g
      = Ok atom_coeff
    & kappa atom_eig atom_solve atom_m atom_k atom_drivers [::] atom_gamma
      = Ok 0
      /\ kappa atom_eig atom_solve atom_m atom_k atom_drivers
           [:: (0%N, 0%N)] atom_gamma
         = Ok (\sum_(c <- [:: (0%N, 0%N)])
                 flux_formula c.1 c.2 3 atom_val atom_vec atom_coeff atom_k
                   [:: 0%N])].
Proof.
have Edim : floordiv (size atom_k) (size atom_m) = Ok 3%N by [].
have Eg : _calculate_gamma_mat 3 (size atom_m) atom_gamma atom_drivers
          = Ok atom_g by vm_compute.
have Evec : _calculate_thermal_evec atom_eig atom_k atom_g
              (np.diag (np.repeat atom_m 3)) = Ok (atom_val, atom_vec).
  by vm_compute.
have Ecoeff : _calculate_coeff atom_solve atom_val atom_vec
                (np.diag (np.repeat atom_m 3)) atom_g = Ok atom_coeff.
  by vm_compute.
have [H0 Hsum _] := kappa_sum_of_crossings Edim Eg Evec Ecoeff.
split; [exact: Edim | exact: Eg | exact: Evec | exact: Ecoeff | ].
split; first exact: H0.
apply: Hsum => c; rewrite inE => /eqP ->.
by apply: calculate_power_closed; vm_compute.
Defined.

(** ** The Hessian of a network of springs *)

Section Springs.
Variable F : fieldType.
Implicit Types (f : nat -> nat -> F) (nl : seq nat) (s : seq (seq nat)).

Lemma bind_Ok (T U : Type) (x : T) (k : T -> result U) : bind (Ok x) k = k x.
Proof. by []. Qed.

Lemma setitem2_mkmx n f r c (x : F) :
  np.setitem2 (np.mkmx n n f) r c x
  = if (r < n)%N && (c < n)%N
    then Ok (np.mkmx n n (fun a b => if (a == r) && (b == c) then x else f a b))
    else Raise IndexError.
Proof.
rewrite /np.setitem2 size_mkmx; case: ltnP => //= lt_r.
have lt_n : (0 < n)%N by apply: leq_trans lt_r.
rewrite ncols_mkmx //; case: ltnP => //= lt_c; congr Ok.
apply: (@eq_from_nth _ [::]).
  by rewrite size_set_nth !size_mkmx; apply/maxn_idPr.
move=> a; rewrite size_set_nth size_mkmx (maxn_idPr lt_r) => lt_a.
rewrite nth_set_nth /= /np.mkmx !nth_mkseq //.
have [->|ne_ar] := eqVneq a r; last by apply: eq_in_mkseq.
apply: (@eq_from_nth _ 0).
  by rewrite size_set_nth !size_mkseq; apply/maxn_idPr.
move=> b; rewrite size_set_nth size_mkseq (maxn_idPr lt_c) => lt_b.
by rewrite nth_set_nth /= !nth_mkseq.
Qed.

(** [a] is the component [c] of the atom [i]. *)
Lemma eq_stride3 (a i c : nat) :
  (c < 3)%N -> (a == 3 * i + c)%N = ((a %/ 3)%N == i) && ((a %% 3)%N == c).
Proof.
move=> lt_c; apply/eqP/andP => [->|[/eqP <- /eqP <-]].
  by rewrite mulnC divnMDl // modnMDl divn_small // modn_small // addn0.
by rewrite mulnC -divn_eq.
Qed.

Lemma ltn_stride3 (i c N : nat) :
  (c < 3)%N -> (3 * i + c < 3 * N)%N = (i < N)%N.
Proof.
move=> lt_c; apply/idP/idP => [lt|lt_i].
  rewrite -(ltn_pmul2l (isT : (0 < 3)%N)).
  by apply: leq_ltn_trans lt; rewrite leq_addr.
apply: (@leq_trans (3 * i.+1)); last by rewrite leq_mul2l.
by rewrite mulnS [(3 * i + c)%N]addnC ltn_add2r.
Qed.


Lemma eq_stride3_0 (a i : nat) :
  (a == 3 * i)%N = ((a %/ 3)%N == i) && ((a %% 3)%N == 0%N).
Proof. by rewrite -[(3 * i)%N]addn0 eq_stride3. Qed.

Variable k0 : F.

(** The loop over the neighbours of the atom [i]. *)
Lemma for_neighbours N i nl f :
  (i < N)%N ->
  for_ nl (fun neighbor KMatrix =>
    KMatrix <- np.setitem2 KMatrix (3 * i) (3 * neighbor) (- k0) ;;
    KMatrix <- np.setitem2 KMatrix (3 * i + 1) (3 * neighbor + 1) (- k0) ;;
    np.setitem2 KMatrix (3 * i + 2) (3 * neighbor + 2) (- k0))
    (np.mkmx (3 * N) (3 * N) f)
  = if all (fun nb => nb < N)%N nl
    then Ok (np.mkmx (3 * N) (3 * N) (fun a b =>
               if [&& (a %/ 3)%N == i, (b %% 3)%N == (a %% 3)%N
                    & (b %/ 3)%N \in nl]
               then - k0 else f a b))
    else Raise IndexError.
Proof.
move=> lt_i; elim: nl f => [|nb nl IH] f /=.
  by congr Ok; apply: eq_in_mkmx => a b _ _; rewrite in_nil !andbF.
rewrite setitem2_mkmx !ltn_pmul2l // lt_i /=.
case: (ltnP nb N) => //= lt_nb.
rewrite setitem2_mkmx !ltn_stride3 // lt_i lt_nb /=.
rewrite setitem2_mkmx !ltn_stride3 // lt_i lt_nb /= IH.
case: (all _ nl) => //; congr Ok; apply: eq_in_mkmx => a b _ _.
rewrite !eq_stride3 // !eq_stride3_0 in_cons.
have := ltn_pmod a (isT : (0 < 3)%N); have := ltn_pmod b (isT : (0 < 3)%N).
case: (a %% 3)%N => [|[|[|?]]] //; case: (b %% 3)%N => [|[|[|?]]] //= _ _;
  by case: (_ == i); case: (_ == nb); case: (_ \in nl).
Qed.

(** The body of the loop over the atoms. *)
Lemma spring_atom N i nl f :
  (KMatrix <-
     np.setitem2 (np.mkmx (3 * N) (3 * N) f) (3 * i) (3 * i)
       (k0 * (size nl)%:R) ;;
   KMatrix <-
     np.setitem2 KMatrix (3 * i + 1) (3 * i + 1) (k0 * (size nl)%:R) ;;
   KMatrix <-
     np.setitem2 KMatrix (3 * i + 2) (3 * i + 2) (k0 * (size nl)%:R) ;;
   for_ nl (fun neighbor KMatrix =>
     KMatrix <- np.setitem2 KMatrix (3 * i) (3 * neighbor) (- k0) ;;
     KMatrix <- np.setitem2 KMatrix (3 * i + 1) (3 * neighbor + 1) (- k0) ;;
     np.setitem2 KMatrix (3 * i + 2) (3 * neighbor + 2) (- k0)) KMatrix)
  = if (i < N)%N && all (fun nb => nb < N)%N nl
    then Ok (np.mkmx (3 * N) (3 * N) (fun a b =>
               if [&& (a %/ 3)%N == i, (b %% 3)%N == (a %% 3)%N
                    & (b %/ 3)%N \in nl]
               then - k0
               else if ((a %/ 3)%N == i) && (a == b)
               then k0 * (size nl)%:R else f a b))
    else Raise IndexError.
Proof.
rewrite setitem2_mkmx !ltn_pmul2l // andbb.
case: (ltnP i N) => //= lt_i.
rewrite setitem2_mkmx !ltn_stride3 // lt_i /=.
rewrite setitem2_mkmx !ltn_stride3 // lt_i /= for_neighbours //.
case: (all _ nl) => //; congr Ok; apply: eq_in_mkmx => a b _ _.
case: ifP => // _; rewrite !eq_stride3 // !eq_stride3_0.
have [->|ne_ab] := eqVneq a b.
  have := ltn_pmod b (isT : (0 < 3)%N).
  by case: (b %% 3)%N => [|[|[|?]]] //= _; case: (_ == i).
rewrite andbF.
have [Ed|ne_d] := eqVneq (b %/ 3)%N i; last by rewrite !andbF.
have [Ea|ne_a] := eqVneq (a %/ 3)%N i; last by [].
have ne_m : ((a %% 3)%N == (b %% 3)%N) = false.
  apply: contra_neqF ne_ab => /eqP Em.
  by rewrite (divn_eq a 3) (divn_eq b 3) Ea Ed Em.
have := ltn_pmod a (isT : (0 < 3)%N); have := ltn_pmod b (isT : (0 < 3)%N).
by move: ne_m; case: (a %% 3)%N => [|[|[|?]]] //;
   case: (b %% 3)%N => [|[|[|?]]].
Qed.


(** The loop over the atoms, from the atom [k] on. *)
Lemma for_atoms N k s f :
  for_ (zip (iota k (size s)) s) (fun inList KMatrix =>
    let i := inList.1 in
    let nList := inList.2 in
    KMatrix <-
      np.setitem2 KMatrix (3 * i) (3 * i) (k0 * (size nList)%:R) ;;
    KMatrix <-
      np.setitem2 KMatrix (3 * i + 1) (3 * i + 1) (k0 * (size nList)%:R) ;;
    KMatrix <-
      np.setitem2 KMatrix (3 * i + 2) (3 * i + 2) (k0 * (size nList)%:R) ;;
    for_ nList (fun neighbor KMatrix =>
      KMatrix <- np.setitem2 KMatrix (3 * i) (3 * neighbor) (- k0) ;;
      KMatrix <-
        np.setitem2 KMatrix (3 * i + 1) (3 * neighbor + 1) (- k0) ;;
      np.setitem2 KMatrix (3 * i + 2) (3 * neighbor + 2) (- k0)) KMatrix)
    (np.mkmx (3 * N) (3 * N) f)
  = if ((size s == 0%N) || (k + size s <= N)%N)
       && all (all (fun nb => nb < N)%N) s
    then Ok (np.mkmx (3 * N) (3 * N) (fun a b =>
               let i := (a %/ 3)%N in
               let nl := nth [::] s (i - k) in
               if [&& (k <= i)%N, (b %% 3)%N == (a %% 3)%N
                    & (b %/ 3)%N \in nl]
               then - k0
               else if (k <= i < k + size s)%N && (a == b)
               then k0 * (size nl)%:R else f a b))
    else Raise IndexError.
Proof.
elim: s k f => [|nl s IH] k f /=.
  congr Ok; apply: eq_in_mkmx => a b _ _.
  by rewrite nth_nil in_nil !andbF addn0 [(k <= _)%N && _]andbC ltnNge andNb.
rewrite spring_atom; case: (ltnP k N) => [lt_k|le_k] /=; last first.
  by rewrite addnS ltnNge (leq_trans le_k (leq_addr _ _)).
case: (all _ nl); rewrite /= ?andbF //.
rewrite IH.
have -> : ((size s == 0%N) || (k.+1 + size s <= N)%N)
          = (k + (size s).+1 <= N)%N.
  by rewrite addSnnS; case: (size s) => [|n] //=; rewrite addn1 lt_k.
case: ifP => // _; congr Ok; apply: eq_in_mkmx => a b _ _ /=.
case: (ltngtP k (a %/ 3)%N) => [lt_ki|lt_ik|Ek] /=.
- by rewrite -(subnSK lt_ki) /= addSnnS.
- by [].
- by rewrite -Ek subnn /= -{1}[k]addn0 ltn_add2l.
Qed.

Lemma ballandspring_k_matE N nLists :
  _calculate_ballandspring_k_mat N k0 nLists
  = if spring_valid N nLists
    then Ok (np.mkmx (3 * N) (3 * N) (spring_entry k0 nLists))
    else Raise IndexError.
Proof.
rewrite /_calculate_ballandspring_k_mat /enumerate zeros_mkmx for_atoms.
rewrite /spring_valid add0n.
have -> : (size nLists == 0%N) || (size nLists <= N)%N = (size nLists <= N)%N.
  by case: (size nLists).
case: ifP => // _; congr Ok; apply: eq_in_mkmx => a b _ _.
by rewrite /spring_entry /= subn0 [(_ < _)%N && _]andbC.
Qed.


(** X1.  The Hessian helper writes, for the atoms [0 .. len(nLists) - 1]
    in turn, the diagonal entries and then the entries of the neighbours.
    It succeeds exactly when there are at most [N] neighbour lists and
    every neighbour is below [N]; any other input raises [IndexError].
    The result is the [3N x 3N] array with [- k0] at the component of
    every neighbour, [k0 * len(nLists[i])] on the rest of the diagonal of
    a listed atom and zero elsewhere: an atom listed as its own neighbour
    has its diagonal overwritten with [- k0]. *)
Theorem calculate_ballandspring_k_mat_spec N nLists :
  _calculate_ballandspring_k_mat N k0 nLists
  = if spring_valid N nLists
    then Ok (np.mkmx (3 * N) (3 * N) (spring_entry k0 nLists))
    else Raise IndexError.
Proof. exact: ballandspring_k_matE. Qed.

End Springs.

(** ** The integers of numpy *)

Lemma iter_half_lt n x : (iter n half x == 0)%N = (x < 2 ^ n)%N.
Proof.
elim: n x => [|n IH] x; first by rewrite expn0 ltnS leqn0.
by rewrite iterSr IH ltn_half_double expnS mul2n.
Qed.

Lemma machine_intE x : machine_int x = (x < 2 ^ 31)%N.
Proof. exact: iter_half_lt. Qed.

(** ** The damping matrix builder on every input *)

Section DampingTotal.
Variable F : fieldType.
Variable gamma : F.

Lemma setitem2_diag n (S : pred nat) p :
  np.setitem2 (diag_where n S gamma) p p gamma
  = if (p < n)%N then Ok (diag_where n (fun r => S r || (r == p)) gamma)
    else Raise IndexError.
Proof.
rewrite /diag_where setitem2_mkmx andbb; case: ifP => // _; congr Ok.
apply: eq_in_mkmx => a b _ _.
case: (eqVneq a b) => [eq_ab|ne_ab] /=.
  by rewrite eq_ab andbb; case: (b == p); rewrite ?orbT ?orbF //; case: (S b).
case: (eqVneq a p) => [eq_ap|//] /=.
by rewrite -eq_ap eq_sym (negbTE ne_ab).
Qed.

Lemma for_stride n (S : pred nat) base k d :
  for_ (iota k d)
    (fun i gmat => np.setitem2 gmat (base + i) (base + i) gamma)
    (diag_where n S gamma)
  = if (d == 0%N) || (base + k + d <= n)%N
    then Ok (diag_where n
               (fun r => S r || (base + k <= r < base + k + d)%N) gamma)
    else Raise IndexError.
Proof.
elim: d k S => [|d IH] k S /=.
  congr Ok; apply: eq_diag_where => r _.
  by rewrite addn0 [(_ <= r)%N && _]andbC ltnNge andNb orbF.
rewrite setitem2_diag; case: (ltnP (base + k) n) => [lt_p|le_p] /=; last first.
  by rewrite addnS ltnNge (leq_trans le_p) ?leq_addr.
rewrite IH addnS addSn -addnS.
have -> : (d == 0%N) || (base + k + d.+1 <= n)%N = (base + k + d.+1 <= n)%N.
  by case: d {IH} => [|d] //=; rewrite addn1 lt_p.
case: ifP => // _; congr Ok; apply: eq_diag_where => r _.
rewrite -orbA; congr (_ || _); rewrite addnS.
have [->|ne_r] := eqVneq r (base + k)%N.
  by rewrite leqnn ltnS leq_addr.
by rewrite /= [(base + k <= r)%N]leq_eqVlt eq_sym (negbTE ne_r).
Qed.

Lemma for_drivers n dim (S : pred nat) (ds : seq nat) :
  for_ ds (fun driver gmat =>
    for_ (range dim) (fun i gmat =>
      np.setitem2 gmat (3 * driver + i) (3 * driver + i) gamma) gmat)
    (diag_where n S gamma)
  = if all (fun d => (dim == 0%N) || (3 * d + dim <= n)%N) ds
    then Ok (diag_where n
               (fun r => S r || has (fun d => 3 * d <= r < 3 * d + dim)%N ds)
               gamma)
    else Raise IndexError.
Proof.
elim: ds S => [|d ds IH] S /=.
  by congr Ok; apply: eq_diag_where => r _; rewrite orbF.
rewrite /range (@for_stride n S (3 * d)%N 0%N dim) addn0.
case: ifP => //= _; rewrite IH; case: ifP => // _.
by congr Ok; apply: eq_diag_where => r _; rewrite orbA.
Qed.

Lemma calculate_gamma_matE dim N (drivers : seq (seq nat)) :
  _calculate_gamma_mat dim N gamma drivers
  = if drivers is [::] then Raise ValueError
    else if gamma_in_bounds dim N drivers
    then Ok (diag_where (dim * N)
               (fun r =>
                  has (fun d => 3 * d <= r < 3 * d + dim)%N (flatten drivers))
               gamma)
    else Raise IndexError.
Proof.
case: drivers => [|g0 gs] //; rewrite /_calculate_gamma_mat /=.
have -> : np.zeros F (dim * N) (dim * N) = diag_where (dim * N) pred0 gamma.
  by rewrite zeros_mkmx; apply: eq_in_mkmx => r c _ _; rewrite andbF.
by rewrite for_drivers.
Qed.

(** X2.  On driver groups that make an array of integers (no empty
    group, indices that fit the integers of numpy, as the side [dim * N] of
    the matrix does), the damping matrix builder is total up to two
    errors: it raises [ValueError] for an empty list of driver groups,
    [IndexError] when a write [3 * driver + i] falls outside the [dim * N]
    rows, and otherwise returns the diagonal array with [gamma] at the
    rows [3 * driver + i], [i < dim], of every driven atom and zero
    elsewhere. *)
Theorem calculate_gamma_mat_total dim N (drivers : seq (seq nat)) :
  machine_int (dim * N) -> index_groups drivers ->
  _calculate_gamma_mat dim N gamma drivers
  = if drivers is [::] then Raise ValueError
    else if gamma_in_bounds dim N drivers
    then Ok (diag_where (dim * N)
               (fun r =>
                  has (fun d => 3 * d <= r < 3 * d + dim)%N (flatten drivers))
               gamma)
    else Raise IndexError.
Proof. by move=> _ _; exact: calculate_gamma_matE. Qed.

(** X3.  The damping matrix depends only on the set of driven atoms: two
    non-empty lists of non-empty driver groups (of indices that fit the
    integers of numpy) that drive the same atoms, in whatever grouping,
    order or multiplicity, give the same result (the same array or the
    same error). *)
Theorem calculate_gamma_mat_driven_set dim N (d1 d2 : seq (seq nat)) :
  machine_int (dim * N) -> index_groups d1 -> index_groups d2 ->
  d1 != [::] -> d2 != [::] -> flatten d1 =i flatten d2 ->
  _calculate_gamma_mat dim N gamma d1 = _calculate_gamma_mat dim N gamma d2.
Proof.
move=> _ _ _; rewrite !calculate_gamma_matE /gamma_in_bounds.
case: d1 => [|g1 r1] //; case: d2 => [|g2 r2] // _ _ eq12.
rewrite (eq_all_r eq12); case: ifP => // _; congr Ok.
by apply: eq_diag_where => r _; apply: eq_has_r.
Qed.

End DampingTotal.

Lemma calculate_gamma_mat_total_witness :
  [/\ machine_int (3 * 2), index_groups [:: [:: 0%N]; [:: 2%N]]
    & _calculate_gamma_mat 3 2 atom_gamma [:: [:: 0%N]; [:: 2%N]]
      = Raise IndexError].
Proof.
have fits : machine_int (3 * 2) by [].
have ints : index_groups [:: [:: 0%N]; [:: 2%N]] by [].
split; [exact: fits | exact: ints | ].
by rewrite (calculate_gamma_mat_total atom_gamma fits ints).
Defined.

Lemma calculate_gamma_mat_driven_set_witness :
  let d1 := [:: [:: 0%N]; [:: 1%N]] in
  let d2 := [:: [:: 1%N; 0%N]; [:: 0%N]] in
  [/\ machine_int (3 * 2), index_groups d1, index_groups d2
    & _calculate_gamma_mat 3 2 atom_gamma d1
      = _calculate_gamma_mat 3 2 atom_gamma d2].
Proof.
move=> d1 d2.
have fits : machine_int (3 * 2) by [].
have ints1 : index_groups d1 by [].
have ints2 : index_groups d2 by [].
split; [exact: fits | exact: ints1 | exact: ints2 | ].
apply: (calculate_gamma_mat_driven_set atom_gamma fits ints1 ints2) => // x.
by rewrite /= !inE; case: (x == 0%N); case: (x == 1%N).
Defined.

(** ** The scalar loops and numpy's error state *)

Section Modes.
Variable F : fieldType.
Implicit Types (val : seq F) (vec coeff K : seq (seq F)).

Lemma kernel_diag val s : kernel val s s = 0.
Proof. by rewrite /kernel subrr mul0r; case: ifP. Qed.

(** X4.  The kernel matrix is skew-symmetric with a zero diagonal: its
    transpose is its negative, so a pair of modes and the swapped pair carry
    opposite kernels and a mode paired with itself carries none, also where
    the quotient was replaced by zero. *)
Theorem valterm_skew_symmetric val :
  np.transpose (valterm val) = np.negative (valterm val)
  /\ forall s, np.entry (valterm val) s s = 0.
Proof.
rewrite valterm_mkmx transpose_mkmx /np.negative map_mkmx; split.
  by apply: eq_in_mkmx => r c _ _; exact: kernel_antisym.
move=> s; case: (ltnP s (size val)) => [lt_s|le_s].
  by rewrite entry_mkmx // kernel_diag.
by rewrite (entry_oob (has_shape_mkmx _ _ _)) // andbb -leqNgt.
Qed.

Lemma calculate_power_loop_skip i j dim val vec coeff K dl :
  wf_flux i j dim val vec coeff K dl ->
  _calculate_power_loop true i j dim val vec coeff K dl
  = Ok (Some (flux_formula i j dim val vec coeff K (nth [::] dl 1))).
Proof.
move=> /wf_fluxP /= [[Hn Hvec Hco HK] [Hi Hj Hdl Hd]].
have le_Nn : ((size val) %/ 2 <= size val)%N by exact: leq_div.
have Htake := has_shape_take Hvec le_Nn.
rewrite /_calculate_power_loop (getitem_nth [::]) //= /flux_formula -Hn.
apply: for_range_xsum0 => idim a lt_idim.
apply: for_range_xsum => jdim b lt_jdim.
have lt_i := idx_lt lt_idim Hi; have lt_j := idx_lt lt_jdim Hj.
apply: for_xsum => d c /Hd Hd3.
have lt_d0 : (3 * d < size val %/ 2)%N by rewrite -[(3 * d)%N]addn0 (idx_lt _ Hd3).
have lt_d1 : (3 * d + 1 < size val %/ 2)%N by rewrite (idx_lt _ Hd3).
have lt_d2 : (3 * d + 2 < size val %/ 2)%N by rewrite (idx_lt _ Hd3).
rewrite (@for_range_xsum0 _ _ _ (fun sigma => \sum_(0 <= tau < size val)
  flux_term val vec coeff K i j idim jdim d sigma tau)) //=.
move=> sigma t lt_s; rewrite !(getitem2_shape Hco) //=.
apply: for_range_xsum => tau u lt_t.
rewrite !(getitem2_shape Hco) //= (getitem2_shape HK) //=.
rewrite !(getitem2_shape Htake) //= !(getitem_nth 0) //=.
rewrite /flux_term /kernel /np.divide; case: ifP => _ /=.
  by rewrite mulr0 addr0.
congr (Ok (Some (_ + _))); rewrite /cosum.
rewrite /np.entry !nth_take // !mulrA; congr (_ * _ * _ * _ * _ * _).
by rewrite addrC addrA.
Qed.

(** X6.  When numpy's error state raises on a division by zero, the
    handler of the scalar loops skips exactly the terms the array version
    sets to zero: on every well-formed input, resonant or not, the loops
    return what [_calculate_power] returns. *)
Theorem calculate_power_loop_raise_mode i j dim val vec coeff K driverList :
  wf_flux i j dim val vec coeff K driverList ->
  _calculate_power_loop true i j dim val vec coeff K driverList
  = (p <- _calculate_power i j dim val vec coeff K driverList ;; Ok (Some p)).
Proof.
by move=> wf; rewrite calculate_power_loop_skip // calculate_power_closed.
Qed.

Lemma xadd_None (a : option F) : xadd a None = None.
Proof. by case: a. Qed.

Lemma for_none (A : eqType) (s : seq A)
    (body : A -> option F -> result (option F)) :
  (forall x, x \in s -> body x None = Ok None) ->
  for_ s body None = Ok None.
Proof.
elim: s => [|x s IH] Hb //=; rewrite Hb ?mem_head //=.
by apply: IH => y y_s; apply: Hb; rewrite in_cons y_s orbT.
Qed.

Lemma for_poison (A : eqType) (s : seq A)
    (body : A -> option F -> result (option F)) (x0 : A) acc :
  (forall x a, x \in s -> exists b, body x a = Ok b) ->
  (forall x, x \in s -> body x None = Ok None) ->
  x0 \in s -> (forall a, body x0 a = Ok None) ->
  for_ s body acc = Ok None.
Proof.
move=> Ht Hn x0_s Hp; elim: s acc Ht Hn x0_s => [|x s IH] acc Ht Hn //.
have Hn' y : y \in s -> body y None = Ok None.
  by move=> y_s; apply: Hn; rewrite in_cons y_s orbT.
rewrite in_cons => /orP [/eqP <-|x0_s] /=.
  by rewrite Hp /=; apply: for_none.
have [b ->] /= := Ht x acc (mem_head _ _).
by apply: IH => // y a y_s; apply: Ht; rewrite in_cons y_s orbT.
Qed.

Lemma for_all_poison (A : eqType) (s : seq A)
    (body : A -> option F -> result (option F)) acc :
  s != [::] -> (forall x a, x \in s -> body x a = Ok None) ->
  for_ s body acc = Ok None.
Proof.
case: s => [|x s] // _ Hb.
apply: (@for_poison _ _ _ x) => [y a y_s|y y_s||a]; rewrite ?mem_head //.
- by exists None; apply: Hb.
- exact: Hb.
- by apply: Hb; rewrite mem_head.
Qed.

Lemma range_nonempty n : (0 < n)%N -> range n != [::].
Proof. by case: n. Qed.

Lemma mem_range x n : (x \in range n) = (x < n)%N.
Proof. by rewrite mem_iota add0n. Qed.

Lemma for_total (A : eqType) (s : seq A)
    (body : A -> option F -> result (option F)) acc :
  (forall x a, x \in s -> exists b, body x a = Ok b) ->
  exists b, for_ s body acc = Ok b.
Proof.
elim: s acc => [|x s IH] acc Ht /=; first by exists acc.
have [b ->] /= := Ht x acc (mem_head _ _).
by apply: IH => y a y_s; apply: Ht; rewrite in_cons y_s orbT.
Qed.

Local Ltac read_pair Hco HK Htake :=
  rewrite !(getitem2_shape Hco) //= (getitem2_shape HK) //=
          !(getitem2_shape Htake) //= !(getitem_nth 0) //= /np.divide.

Lemma calculate_power_loop_nonfinite i j dim val vec coeff K dl :
  wf_flux i j dim val vec coeff K dl -> (0 < dim)%N ->
  nth [::] dl 1 != [::] -> ~~ no_resonance val ->
  _calculate_power_loop false i j dim val vec coeff K dl = Ok None.
Proof.
move=> /wf_fluxP /= [[Hn Hvec Hco HK] [Hi Hj Hdl Hd]] dim_gt0 d_ne.
case/allPn => x x_val /allPn [y y_val /negbNE /eqP res_xy].
have le_Nn : ((size val) %/ 2 <= size val)%N by exact: leq_div.
have Htake := has_shape_take Hvec le_Nn.
rewrite /_calculate_power_loop (getitem_nth [::]) //= -Hn.
apply: for_all_poison => [|idim a]; first exact: range_nonempty.
rewrite mem_range => lt_idim.
apply: for_all_poison => [|jdim b]; first exact: range_nonempty.
rewrite mem_range => lt_jdim.
have lt_i := idx_lt lt_idim Hi; have lt_j := idx_lt lt_jdim Hj.
apply: for_all_poison => // d c /Hd Hd3.
have lt_d0 : (3 * d < size val %/ 2)%N by rewrite -[(3 * d)%N]addn0 (idx_lt _ Hd3).
have lt_d1 : (3 * d + 1 < size val %/ 2)%N by rewrite (idx_lt _ Hd3).
have lt_d2 : (3 * d + 2 < size val %/ 2)%N by rewrite (idx_lt _ Hd3).
set loop := for_ _ _ _.
suff -> : loop = Ok None by rewrite /= xadd_None.
rewrite {}/loop.
have lt_x : (index x val < size val)%N by rewrite index_mem.
have lt_y : (index y val < size val)%N by rewrite index_mem.
apply: (@for_poison _ _ _ (index x val)) => [sigma t|sigma||t];
  rewrite ?mem_range //.
- move=> lt_s; rewrite !(getitem2_shape Hco) //=.
  apply: for_total => tau u; rewrite mem_range => lt_t.
  by read_pair Hco HK Htake; case: ifP => _; eexists.
- move=> lt_s; rewrite !(getitem2_shape Hco) //=.
  apply: for_none => tau; rewrite mem_range => lt_t.
  by read_pair Hco HK Htake; case: ifP.
rewrite !(getitem2_shape Hco) //=.
apply: (@for_poison _ _ _ (index y val)) => [tau u|tau||u];
  rewrite ?mem_range //.
- by move=> lt_t; read_pair Hco HK Htake; case: ifP => _; eexists.
- by move=> lt_t; read_pair Hco HK Htake; case: ifP.
by read_pair Hco HK Htake; rewrite !nth_index // res_xy eqxx.
Qed.

(** X7.  When numpy's error state does not raise, a pair of eigenvalues
    that sums to zero makes the result of the scalar loops non-finite as
    soon as one term is computed ([dim > 0] and a driven atom in the second
    group), while [_calculate_power] still returns a number on the same
    input. *)
Theorem calculate_power_loop_warn_mode i j dim val vec coeff K driverList :
  wf_flux i j dim val vec coeff K driverList -> (0 < dim)%N ->
  nth [::] driverList 1 != [::] -> ~~ no_resonance val ->
  _calculate_power_loop false i j dim val vec coeff K driverList = Ok None
  /\ exists p, _calculate_power i j dim val vec coeff K driverList = Ok p.
Proof.
move=> wf dim_gt0 d_ne res; split; first exact: calculate_power_loop_nonfinite.
by rewrite calculate_power_closed //; eexists.
Qed.

End Modes.

(** ** The composition of the stages *)

Section Pipeline.
Variable F : fieldType.
Variable eig : seq (seq F) -> seq (seq F) -> result (seq F * seq (seq F)).
Variable solve : seq (seq F) -> seq (seq F) -> result (seq (seq F)).
Implicit Types (k : seq (seq F)) (m : seq F).

Lemma ncols_coeff_rhs N : np.ncols (coeff_rhs F N) = N.
Proof. by case: N => // N; rewrite /coeff_rhs ncols_mkmx. Qed.

Lemma half_double N : ((2 * N) %/ 2)%N = N.
Proof. by rewrite mulKn. Qed.

Lemma kappa_pipelineE m k drivers crossings gamma :
  eig_contract eig -> solve_contract solve ->
  wf_kappa m k drivers crossings ->
  let dim := (size k %/ size m)%N in
  let N := (dim * size m)%N in
  let G := diag_where N (damped dim drivers) gamma in
  let M := np.diag (np.repeat m dim) in
  kappa eig solve m k drivers crossings gamma
  = (vv <- eig (companion_left N k G) (companion_right N M) ;;
     coeff <- solve (coeff_lhs N vv.1 vv.2 M G) (coeff_rhs F N) ;;
     Ok (\sum_(c <- crossings)
           flux_formula c.1 c.2 dim vv.1 vv.2 coeff k (nth [::] drivers 1))).
Proof.
move=> Heig Hsolve /and3P [_ _ /and5P [m_gt0 Hk Hdl Hg /andP [Hd Hc]]].
move=> dim N G M.
rewrite /kappa /floordiv -[(size m == 0)%N]negbK -lt0n m_gt0 /= -/dim.
rewrite calculate_gamma_matE Hg -/N -/(damped dim drivers) -/G.
have -> /= : (if drivers is [::] then Raise ValueError else Ok G) = Ok G.
  by case: (drivers) Hdl.
have sz_M : size M = N by rewrite /M diag_mkmx size_mkmx size_repeat.
have HM : np.has_shape N N M.
  by rewrite /M diag_mkmx size_repeat; exact: has_shape_mkmx.
have HG : np.has_shape N N G by exact: has_shape_mkmx.
rewrite -/M calculate_thermal_evec_blocks ?sz_M //.
case E: (eig _ _) => [[val vec]|e] //=.
have /and3P [/eqP sz_val Hvec _] := Heig _ _ _ _ E.
rewrite size_mkmx in sz_val Hvec.
rewrite (calculate_coeff_system solve Hvec sz_val HM HG).
case S: (solve _ _) => [coeff|e] //=.
have /andP [Hco _] := Hsolve _ _ _ S.
rewrite size_mkmx ncols_coeff_rhs in Hco.
rewrite -[X in Ok X]add0r; apply: for_sum => c a /(allP Hc) /andP [Hi Hj].
rewrite calculate_power_closed //.
by rewrite /wf_flux sz_val half_double eqxx Hvec Hco Hk Hi Hj Hdl Hd.
Qed.

Lemma wf_kappa_swap m k drivers crossings :
  wf_kappa m k drivers [seq (c.2, c.1) | c <- crossings]
  = wf_kappa m k drivers crossings.
Proof.
rewrite /wf_kappa all_map; do 7![congr (_ && _)].
by apply: eq_all => c /=; rewrite andbC.
Qed.

Lemma wf_kappa_perm m k drivers c1 c2 :
  perm_eq c1 c2 -> wf_kappa m k drivers c1 = wf_kappa m k drivers c2.
Proof. by move=> p12; rewrite /wf_kappa (perm_all _ p12). Qed.

(** X8.  On a well-formed input and with routines that keep their
    contracts, [kappa] is the composition of its stages: the generalized
    eigenproblem of the pencil [[0, I], [k, G]], [[I, 0], [0, -M]] for the
    damping matrix [G] and the mass matrix [M], then the coefficient
    system, then the sum of the flux formula over the crossings.  Only the
    two routines can fail, and their failure is the failure of [kappa]. *)
Theorem kappa_pipeline m k drivers crossings gamma :
  eig_contract eig -> solve_contract solve ->
  wf_kappa m k drivers crossings ->
  let dim := (size k %/ size m)%N in
  let N := (dim * size m)%N in
  let G := diag_where N (damped dim drivers) gamma in
  let M := np.diag (np.repeat m dim) in
  kappa eig solve m k drivers crossings gamma
  = (vv <- eig (companion_left N k G) (companion_right N M) ;;
     coeff <- solve (coeff_lhs N vv.1 vv.2 M G) (coeff_rhs F N) ;;
     Ok (\sum_(c <- crossings)
           flux_formula c.1 c.2 dim vv.1 vv.2 coeff k (nth [::] drivers 1))).
Proof. exact: kappa_pipelineE. Qed.

(** X9.  For a symmetric Hessian, reversing every crossing negates the
    conductivity: on a well-formed input [kappa] on the reversed crossings
    is the opposite of [kappa] on the crossings, or fails as it does. *)
Theorem kappa_reverse_crossings m k drivers crossings gamma :
  eig_contract eig -> solve_contract solve ->
  wf_kappa m k drivers crossings -> symmetric k ->
  kappa eig solve m k drivers [seq (c.2, c.1) | c <- crossings] gamma
  = (x <- kappa eig solve m k drivers crossings gamma ;; Ok (- x)).
Proof.
move=> Heig Hsolve wf symk.
have /and4P [_ _ _ /andP [Hk _]] := wf.
rewrite !kappa_pipelineE ?wf_kappa_swap //.
case: (eig _ _) => [[val vec]|e] //=; case: (solve _ _) => [coeff|e] //=.
congr Ok; rewrite big_map -sumrN; apply: eq_bigr => c _ /=.
by apply: flux_formula_swap; exact: symmetricP Hk symk.
Qed.

(** X10.  In exact arithmetic the conductivity does not depend on the
    order of the crossings: on a well-formed input a permutation of the
    crossings leaves the result of [kappa] unchanged. *)
Theorem kappa_perm_crossings m k drivers c1 c2 gamma :
  eig_contract eig -> solve_contract solve ->
  wf_kappa m k drivers c1 -> perm_eq c1 c2 ->
  kappa eig solve m k drivers c1 gamma = kappa eig solve m k drivers c2 gamma.
Proof.
move=> Heig Hsolve wf p12.
rewrite !kappa_pipelineE -?(wf_kappa_perm _ _ _ p12) //.
case: (eig _ _) => [[val vec]|e] //=; case: (solve _ _) => [coeff|e] //=.
by congr Ok; apply: perm_big.
Qed.

(** X5.  The flux integrators read the second driver group first: with
    fewer than two groups both raise [IndexError], whatever the other
    arguments, and [kappa] then returns no value as soon as there is a
    crossing. *)
Theorem calculate_power_needs_two_groups fp i j dim val vec coeff K driverList :
  (size driverList < 2)%N ->
  [/\ _calculate_power i j dim val vec coeff K driverList = Raise IndexError,
      _calculate_power_loop fp i j dim val vec coeff K driverList
      = Raise IndexError
    & forall m crossings gamma, crossings != [::] ->
        exists e, kappa eig solve m K driverList crossings gamma = Raise e].
Proof.
move=> lt2.
have E i' j' dim' val' vec' coeff' :
    _calculate_power i' j' dim' val' vec' coeff' K driverList
    = Raise IndexError.
  by case: driverList lt2 => [|g0 [|g1 rest]].
split=> //; first by case: (driverList) lt2 => [|g0 [|g1 rest]].
move=> m [|c cs] gamma // _; rewrite /kappa.
case: (floordiv _ _) => [dim'|e] /=; last by exists e.
case: (_calculate_gamma_mat _ _ _ _) => [g|e] /=; last by exists e.
case: (_calculate_thermal_evec _ _ _ _) => [[val' vec']|e] /=; last by exists e.
case: (_calculate_coeff _ _ _ _ _) => [coeff'|e] /=; last by exists e.
by rewrite E /=; exists IndexError.
Qed.

(** X11.  The coefficient solver reads only the displacement block of
    the eigenvectors: two arrays with the same number of rows and the same
    upper half give the same result. *)
Theorem calculate_coeff_ignores_velocities val vec1 vec2 (M G : seq (seq F)) :
  size vec1 = size vec2 ->
  take (size vec1 %/ 2) vec1 = take (size vec1 %/ 2) vec2 ->
  _calculate_coeff solve val vec1 M G = _calculate_coeff solve val vec2 M G.
Proof. by move=> sz12 top12; rewrite /_calculate_coeff -sz12 top12. Qed.

End Pipeline.

(** ** Instances of the theorems above on the fixtures *)

Lemma calculate_power_needs_two_groups_witness :
  (size [:: [:: 0%N]] < 2)%N
  /\ _calculate_power 0 1 3 pair_val pair_vec pair_coeff pair_k [:: [:: 0%N]]
     = Raise IndexError.
Proof.
have [H _ _] :=
  @calculate_power_needs_two_groups rat no_eig no_solve true 0 1 3 pair_val
    pair_vec pair_coeff pair_k [:: [:: 0%N]] isT.
by split; [ | exact: H].
Defined.

Lemma calculate_power_loop_raise_mode_witness :
  [/\ wf_flux 0 1 3 res_val pair_vec pair_coeff pair_k pair_drivers,
      ~~ no_resonance res_val
    & _calculate_power_loop true 0 1 3 res_val pair_vec pair_coeff pair_k
        pair_drivers
      = (p <- _calculate_power 0 1 3 res_val pair_vec pair_coeff pair_k
                pair_drivers ;;
         Ok (Some p))].
Proof.
have wf : wf_flux 0 1 3 res_val pair_vec pair_coeff pair_k pair_drivers.
  by vm_compute.
split; [exact: wf | by vm_compute | ].
exact: (calculate_power_loop_raise_mode wf).
Defined.

Lemma calculate_power_loop_warn_mode_witness :
  [/\ wf_flux 0 1 3 res_val pair_vec pair_coeff pair_k pair_drivers,
      (0 < 3)%N, nth [::] pair_drivers 1 != [::], ~~ no_resonance res_val
    & _calculate_power_loop false 0 1 3 res_val pair_vec pair_coeff pair_k
        pair_drivers
      = Ok None].
Proof.
have wf : wf_flux 0 1 3 res_val pair_vec pair_coeff pair_k pair_drivers.
  by vm_compute.
have res : ~~ no_resonance res_val by vm_compute.
have [H _] := calculate_power_loop_warn_mode wf (isT : (0 < 3)%N) isT res.
by split; [exact: wf | | | exact: res | exact: H].
Defined.

Lemma kappa_pipeline_witness :
  [/\ eig_contract duo_eig, solve_contract duo_solve,
      wf_kappa duo_m duo_k duo_drivers [:: (0%N, 1%N)],
      kappa duo_eig duo_solve duo_m duo_k duo_drivers [:: (0%N, 1%N)]
        atom_gamma
      = Ok (3%:R / 20%:R)
    & kappa duo_eig duo_solve duo_m duo_k duo_drivers [:: (0%N, 1%N)]
        atom_gamma
      = (vv <- duo_eig
                 (companion_left 6 duo_k
                    (diag_where 6 (damped 3 duo_drivers) atom_gamma))
                 (companion_right 6 (np.diag (np.repeat duo_m 3))) ;;
         coeff <- duo_solve
                    (coeff_lhs 6 vv.1 vv.2 (np.diag (np.repeat duo_m 3))
                       (diag_where 6 (damped 3 duo_drivers) atom_gamma))
                    (coeff_rhs rat 6) ;;
         Ok (\sum_(c <- [:: (0%N, 1%N)])
               flux_formula c.1 c.2 3 vv.1 vv.2 coeff duo_k [:: 1%N]))].
Proof.
have wf : wf_kappa duo_m duo_k duo_drivers [:: (0%N, 1%N)] by vm_compute.
split; [exact: duo_eig_contract | exact: duo_solve_contract | exact: wf
       | by vm_compute | ].
exact: (kappa_pipeline atom_gamma duo_eig_contract duo_solve_contract wf).
Defined.

Lemma kappa_reverse_crossings_witness :
  [/\ eig_contract duo_eig, solve_contract duo_solve,
      wf_kappa duo_m duo_k duo_drivers [:: (0%N, 1%N)], symmetric duo_k
    & kappa duo_eig duo_solve duo_m duo_k duo_drivers [:: (0%N, 1%N)]
        atom_gamma
      = Ok (3%:R / 20%:R)
      /\ kappa duo_eig duo_solve duo_m duo_k duo_drivers
           [seq (c.2, c.1) | c <- [:: (0%N, 1%N)]] atom_gamma
         = Ok (- (3%:R / 20%:R))].
Proof.
have wf : wf_kappa duo_m duo_k duo_drivers [:: (0%N, 1%N)] by vm_compute.
have sym : symmetric duo_k by vm_compute.
have Ek : kappa duo_eig duo_solve duo_m duo_k duo_drivers [:: (0%N, 1%N)]
            atom_gamma = Ok (3%:R / 20%:R) by vm_compute.
split; [exact: duo_eig_contract | exact: duo_solve_contract | exact: wf
       | exact: sym | ].
split; first exact: Ek.
by rewrite (kappa_reverse_crossings atom_gamma duo_eig_contract
              duo_solve_contract wf sym) Ek.
Defined.

Lemma kappa_perm_crossings_witness :
  let c1 := [:: (0%N, 1%N); (0%N, 0%N); (1%N, 1%N)] in
  let c2 := [:: (1%N, 1%N); (0%N, 1%N); (0%N, 0%N)] in
  [/\ eig_contract duo_eig, solve_contract duo_solve,
      wf_kappa duo_m duo_k duo_drivers c1, perm_eq c1 c2
    & kappa duo_eig duo_solve duo_m duo_k duo_drivers c1 atom_gamma
      = Ok (3%:R / 20%:R)
      /\ kappa duo_eig duo_solve duo_m duo_k duo_drivers c2 atom_gamma
         = Ok (3%:R / 20%:R)].
Proof.
move=> c1 c2.
have wf : wf_kappa duo_m duo_k duo_drivers c1 by vm_compute.
have p12 : perm_eq c1 c2 by vm_compute.
have Ek : kappa duo_eig duo_solve duo_m duo_k duo_drivers c1 atom_gamma
          = Ok (3%:R / 20%:R) by vm_compute.
split; [exact: duo_eig_contract | exact: duo_solve_contract | exact: wf
       | exact: p12 | ].
split; first exact: Ek.
by rewrite -(kappa_perm_crossings atom_gamma duo_eig_contract
               duo_solve_contract wf p12) Ek.
Defined.

Lemma calculate_coeff_ignores_velocities_witness :
  let vec2 := take 3 atom_vec ++ np.zeros rat 3 6 in
  [/\ size atom_vec = size vec2,
      take (size atom_vec %/ 2) atom_vec = take (size atom_vec %/ 2) vec2
    & _calculate_coeff atom_solve atom_val atom_vec atom_mass atom_g
      = _calculate_coeff atom_solve atom_val vec2 atom_mass atom_g].
Proof.
move=> vec2.
have sz12 : size atom_vec = size vec2 by [].
have top12 : take (size atom_vec %/ 2) atom_vec
             = take (size atom_vec %/ 2) vec2 by [].
split; [exact: sz12 | exact: top12 | ].
exact: (calculate_coeff_ignores_velocities atom_solve atom_val atom_mass
          atom_g sz12 top12).
Defined.

(** ** Symmetry and row sums of the Hessian of a network *)

Section Network.
Variable F : fieldType.
Variable k0 : F.
Implicit Types (nLists : seq (seq nat)) (K : seq (seq F)).

Lemma mem_neighbours nLists i j :
  j \in nth [::] nLists i -> (i < size nLists)%N.
Proof. by case: ltnP => // le_i; rewrite nth_default. Qed.

Lemma spring_mutualP nLists :
  spring_mutual nLists ->
  forall i j, (j \in nth [::] nLists i) = (i \in nth [::] nLists j).
Proof.
move=> /allP mut.
have half i j : j \in nth [::] nLists i -> i \in nth [::] nLists j.
  move=> j_in; have lt_i := mem_neighbours j_in.
  have := mut i; rewrite mem_iota /= add0n => /(_ lt_i) /allP; exact.
by move=> i j; apply/idP/idP; exact: half.
Qed.

Lemma stride3_div i : ((3 * i) %/ 3 = i)%N /\ ((3 * i) %% 3 = 0)%N.
Proof. by rewrite mulKn // mulnC modnMl. Qed.

Lemma ballandspring_symmetricE N nLists K :
  k0 != 0 -> _calculate_ballandspring_k_mat N k0 nLists = Ok K ->
  symmetric K = spring_mutual nLists.
Proof.
move=> k0_neq0; rewrite ballandspring_k_matE.
case valid: (spring_valid N nLists) => // -[<-].
have /andP [le_sz /allP in_N] := valid.
rewrite /symmetric transpose_mkmx; apply/eqP/idP => [E|mut]; last first.
  apply: eq_in_mkmx => a b _ _; rewrite /spring_entry.
  rewrite (spring_mutualP mut) [(a %% 3 == _)%N]eq_sym.
  by case: ifP => // _; rewrite eq_sym; case: eqP => // ->.
apply/allP => i; rewrite mem_iota /= add0n => lt_i.
apply/allP => j j_in.
have lt_iN : (3 * i < 3 * N)%N by rewrite ltn_pmul2l // (leq_trans lt_i).
have lt_jN : (3 * j < 3 * N)%N.
  rewrite ltn_pmul2l //.
  by have /allP := in_N _ (mem_nth [::] lt_i); apply.
have := congr1 (fun A => np.entry A (3 * i) (3 * j)) E.
rewrite !entry_mkmx // /spring_entry.
have [-> ->] := stride3_div i; have [-> ->] := stride3_div j.
rewrite eqxx j_in /=.
case j_i: (i \in nth [::] nLists j) => //=.
rewrite eqn_pmul2l //; case: eqP => [eq_ji|_] /=.
  by move: j_in j_i; rewrite eq_ji => ->.
by move/eqP; rewrite eq_sym oppr_eq0 (negbTE k0_neq0).
Qed.

Lemma sum_nat_pred1 (x : F) a n :
  \sum_(0 <= b < n) (if a == b then x else 0) = if (a < n)%N then x else 0.
Proof.
elim: n => [|n IH]; first by rewrite big_geq.
rewrite big_nat_recr //= IH [in RHS]ltnS [in RHS]leq_eqVlt.
case: eqP => [->|_] /=; first by rewrite ltnn add0r.
by rewrite addr0.
Qed.

Lemma sum_stride3 (f : nat -> F) N :
  \sum_(0 <= b < 3 * N) f b
  = \sum_(0 <= q < N) (f (3 * q)%N + f (3 * q + 1)%N + f (3 * q + 2)%N).
Proof.
elim: N => [|N IH]; first by rewrite muln0 !big_geq.
have -> : (3 * N.+1 = (3 * N).+3)%N by rewrite mulnS addnC !addnS addn0.
rewrite !big_nat_recr //= IH.
by rewrite addn1 addn2 -!addrA.
Qed.

Lemma sum_const_seq (x : F) (s : seq nat) :
  \sum_(q <- s) x = x * (size s)%:R.
Proof.
elim: s => [|q s IH]; first by rewrite big_nil mulr0.
by rewrite big_cons IH /= -nat1r mulrDr mulr1.
Qed.

Lemma sum_mem (x : F) (nl : seq nat) N :
  uniq nl -> all (fun q => q < N)%N nl ->
  \sum_(0 <= q < N) (if q \in nl then x else 0) = x * (size nl)%:R.
Proof.
move=> uniq_nl /allP lt_N; rewrite -big_mkcond /= -big_filter.
rewrite -sum_const_seq; apply: perm_big; apply: uniq_perm => //.
  by rewrite filter_uniq // iota_uniq.
move=> q; rewrite mem_filter mem_index_iota /=.
by case q_in: (q \in nl) => //=; rewrite lt_N.
Qed.

Lemma stride3_divmod q r :
  (r < 3)%N -> ((3 * q + r) %/ 3 = q)%N /\ ((3 * q + r) %% 3 = r)%N.
Proof.
move=> lt_r.
by rewrite mulnC divnMDl // modnMDl divn_small // modn_small // addn0.
Qed.

Lemma ballandspring_row_sumsE N nLists K :
  spring_simple nLists -> _calculate_ballandspring_k_mat N k0 nLists = Ok K ->
  all (fun row => np.vsum row == 0) K.
Proof.
move=> /allP simple; rewrite ballandspring_k_matE.
case valid: (spring_valid N nLists) => // -[<-].
have /andP [le_sz /allP in_N] := valid.
rewrite /np.mkmx all_map; apply/allP => a a_in /=.
rewrite vsum_mkseq /spring_entry.
set i := (a %/ 3)%N; set nl := nth [::] nLists i.
case: (ltnP i (size nLists)) => [lt_i|le_i]; last first.
  rewrite big1 // => b _.
  by rewrite /nl nth_default //= in_nil !andbF.
have := simple i; rewrite mem_iota /= add0n => /(_ lt_i) /andP [uniq_nl i_nl].
have lt_nl : all (fun q => q < N)%N nl by apply: in_N; apply: mem_nth.
have lt_a : (a < 3 * N)%N by move: a_in; rewrite mem_iota add0n.
rewrite (eq_bigr (fun b =>
  (if (b %% 3 == a %% 3)%N && (b %/ 3 \in nl)%N then - k0 else 0)
  + (if a == b then k0 * (size nl)%:R else 0))).
  move=> b _; rewrite andbT; case: ifP => [/andP [_ b_in]|_]; last by rewrite add0r.
  case: eqP => [eq_ab|_]; last by rewrite addr0.
  by move: b_in; rewrite -eq_ab -/i (negbTE i_nl).
rewrite big_split /= sum_nat_pred1 lt_a sum_stride3.
rewrite (eq_bigr (fun q => if q \in nl then - k0 else 0)).
  move=> q _.
  have [-> ->] := stride3_div q.
  have [-> ->] := @stride3_divmod q 1 isT.
  have [-> ->] := @stride3_divmod q 2 isT.
  have lt_c : (a %% 3 < 3)%N by rewrite ltn_mod.
  case: (a %% 3)%N lt_c => [|[|[|c]]] // _; case: (q \in nl);
    by rewrite /= ?addr0 ?add0r.
by rewrite sum_mem // mulNr addNr.
Qed.

(** X12.  For a non-zero spring constant, the Hessian built from the
    neighbour lists is symmetric exactly when the lists are mutual: every
    atom is listed by each of its neighbours. *)
Theorem calculate_ballandspring_k_mat_symmetric N nLists K :
  k0 != 0 -> _calculate_ballandspring_k_mat N k0 nLists = Ok K ->
  symmetric K = spring_mutual nLists.
Proof. exact: ballandspring_symmetricE. Qed.

Lemma count_stride3 c (nl : seq nat) N :
  (c < 3)%N -> uniq nl -> all (fun q => q < N)%N nl ->
  count (fun b => (b %% 3 == c)%N && (b %/ 3 \in nl)) (iota 0 (3 * N))
  = size nl.
Proof.
move=> lt_c uniq_nl /allP lt_N.
rewrite -size_filter -(size_map (fun q => 3 * q + c)%N nl).
apply: perm_size; apply: uniq_perm.
- by rewrite filter_uniq // iota_uniq.
- rewrite map_inj_uniq // => q1 q2 /addIn /eqP.
  by rewrite eqn_pmul2l // => /eqP.
move=> b; rewrite mem_filter mem_iota /= add0n.
apply/idP/mapP => [/andP [/andP [/eqP mod_c div_in] lt_b]|[q q_in ->]].
  by exists (b %/ 3)%N; rewrite // {1}(divn_eq b 3) mod_c mulnC.
have [-> ->] := stride3_divmod q lt_c; rewrite eqxx q_in /=.
by rewrite ltn_stride3 // lt_N.
Qed.

Lemma ballandspring_row_entriesE N nLists K a :
  spring_simple nLists -> _calculate_ballandspring_k_mat N k0 nLists = Ok K ->
  (a < 3 * N)%N ->
  let nList := nth [::] nLists (a %/ 3) in
  [/\ np.entry K a a = k0 * (size nList)%:R,
      k0 != 0 ->
      count (fun b => (b != a) && (np.entry K a b == - k0)) (iota 0 (3 * N))
      = size nList
    & forall b, b != a -> np.entry K a b != - k0 -> np.entry K a b = 0].
Proof.
move=> /allP simple; rewrite ballandspring_k_matE.
case valid: (spring_valid N nLists) => // -[<-] lt_a nList.
have /andP [le_sz /allP in_N] := valid.
have [uniq_nl a_nl lt_nl] :
    [/\ uniq nList, (a %/ 3)%N \notin nList & all (fun q => q < N)%N nList].
  rewrite /nList; case: (ltnP (a %/ 3) (size nLists)) => [lt_i|le_i].
    have := simple (a %/ 3)%N; rewrite mem_iota /= add0n => /(_ lt_i).
    by case/andP=> -> ->; split=> //; apply: in_N; apply: mem_nth.
  by rewrite nth_default.
have entryE b : (b < 3 * N)%N ->
    np.entry (np.mkmx (3 * N) (3 * N) (spring_entry k0 nLists)) a b
    = if (b %% 3 == a %% 3)%N && (b %/ 3 \in nList) then - k0
      else if a == b then k0 * (size nList)%:R else 0.
  move=> lt_b; rewrite entry_mkmx // /spring_entry -/nList.
  case: ifP => // _; case: eqP => //= _.
  case: (ltnP (a %/ 3) (size nLists)) => // le_i.
  by rewrite /nList nth_default //= mulr0.
split.
- by rewrite entryE // (negbTE a_nl) andbF eqxx.
- move=> k0_neq0; rewrite -(count_stride3 (ltn_pmod a (isT : 0 < 3)%N) uniq_nl lt_nl).
  apply: eq_in_count => b; rewrite mem_iota /= add0n => lt_b.
  rewrite entryE //; case: ifP => [/andP [_ b_in]|_].
    by rewrite eqxx andbT; apply: contraNneq a_nl => <-.
  have [//|ne_ba] /= := eqVneq b a.
  by rewrite eq_sym oppr_eq0 (negbTE k0_neq0).
move=> b ne_ba; case: (ltnP b (3 * N)) => [lt_b|le_b].
  rewrite entryE //; case: ifP => [_|_ _]; first by rewrite eqxx.
  by rewrite eq_sym (negbTE ne_ba).
by move=> _; rewrite (entry_oob (has_shape_mkmx _ _ _)) // negb_and -!leqNgt le_b orbT.
Qed.

(** X13.  When no atom lists a neighbour twice or lists itself, the row
    of a degree of freedom of the atom [i] holds the product
    [k0 * len(nLists[i])] on the diagonal, the entry [- k0] at exactly
    [len(nLists[i])] other places and zero elsewhere.  In exact
    arithmetic, that of the scalars here, every row therefore sums to
    zero; in floating point the sum of a row is the rounding error of the
    product. *)
Theorem calculate_ballandspring_k_mat_row_sums N nLists K :
  spring_simple nLists -> _calculate_ballandspring_k_mat N k0 nLists = Ok K ->
  (forall a, (a < 3 * N)%N ->
     let nList := nth [::] nLists (a %/ 3) in
     [/\ np.entry K a a = k0 * (size nList)%:R,
         k0 != 0 ->
         count (fun b => (b != a) && (np.entry K a b == - k0))
               (iota 0 (3 * N))
         = size nList
       & forall b, b != a -> np.entry K a b != - k0 -> np.entry K a b = 0])
  /\ all (fun row => np.vsum row == 0) K.
Proof.
move=> simple EK; split; last exact: ballandspring_row_sumsE simple EK.
by move=> a lt_a; apply: ballandspring_row_entriesE.
Qed.

End Network.

Lemma calculate_ballandspring_k_mat_symmetric_witness :
  let k0 : rat := 2%:R in
  let K := np.mkmx 9 9 (spring_entry k0 chain_nLists) in
  [/\ k0 != 0, _calculate_ballandspring_k_mat 3 k0 chain_nLists = Ok K
    & symmetric K = spring_mutual chain_nLists].
Proof.
move=> k0 K.
have ne : k0 != 0 by [].
have E : _calculate_ballandspring_k_mat 3 k0 chain_nLists = Ok K.
  by vm_compute.
split; [exact: ne | exact: E | ].
exact: (calculate_ballandspring_k_mat_symmetric ne E).
Defined.

Lemma calculate_ballandspring_k_mat_row_sums_witness :
  let k0 : rat := 2%:R in
  let K := np.mkmx 9 9 (spring_entry k0 chain_nLists) in
  [/\ spring_simple chain_nLists,
      _calculate_ballandspring_k_mat 3 k0 chain_nLists = Ok K,
      np.entry K 4 4 = k0 * 2%:R,
      count (fun b => (b != 4%N) && (np.entry K 4 b == - k0)) (iota 0 9)
      = 2%N
    & all (fun row => np.vsum row == 0) K].
Proof.
move=> k0 K.
have simple : spring_simple chain_nLists by [].
have E : _calculate_ballandspring_k_mat 3 k0 chain_nLists = Ok K.
  by vm_compute.
have [rows sums] := calculate_ballandspring_k_mat_row_sums simple E.
have [diag4 neighbours4 _] := rows 4%N isT.
split; [exact: simple | exact: E | exact: diag4 | | exact: sums].
exact: (neighbours4 isT).
Defined.

(** ** The failures before the flux integration *)

Section Failures.
Variable F : fieldType.
Variable eig : seq (seq F) -> seq (seq F) -> result (seq F * seq (seq F)).
Variable solve : seq (seq F) -> seq (seq F) -> result (seq (seq F)).
Implicit Types (K G M vec coeff : seq (seq F)) (val m : seq F).

(** X14.  On driver groups that make a two-dimensional array of integers
    and a number of degrees of freedom that fits the integers of numpy,
    [kappa] fails before the eigensolver in a fixed order: the
    division raises [ZeroDivisionError] for an empty [m]; else an empty
    list of driver groups raises [ValueError]; else a driven atom outside
    the damping matrix raises [IndexError]; otherwise the remaining stages
    run on the damping matrix [G] and the mass matrix [M]. *)
Theorem kappa_early_errors m K drivers crossings gamma :
  index_array drivers -> machine_int (size K %/ size m * size m) ->
  let dim := (size K %/ size m)%N in
  let G := diag_where (dim * size m) (damped dim drivers) gamma in
  let M := np.diag (np.repeat m dim) in
  kappa eig solve m K drivers crossings gamma
  = if size m == 0%N then Raise ZeroDivisionError
    else if drivers is [::] then Raise ValueError
    else if ~~ gamma_in_bounds dim (size m) drivers then Raise IndexError
    else
      vv <- _calculate_thermal_evec eig K G M ;;
      coeff <- _calculate_coeff solve vv.1 vv.2 M G ;;
      for_ crossings (fun crossing kappa =>
        p <- _calculate_power crossing.1 crossing.2 dim vv.1 vv.2 coeff K
               drivers ;;
        Ok (kappa + p)) 0.
Proof.
case: drivers => [|g0 gs] _ _ dim G M; rewrite /kappa /floordiv;
  case: ifP => //= _; rewrite calculate_gamma_matE // -/dim.
by case: ifP.
Qed.

Lemma ncols_cat_rows (A B : seq (seq F)) :
  (0 < size A)%N -> size A = size B ->
  np.ncols [seq p.1 ++ p.2 | p <- zip A B] = (np.ncols A + np.ncols B)%N.
Proof. by case: A B => [|a A] [|b B] //= _ _; rewrite /np.ncols /= size_cat. Qed.

Lemma thermal_evec_shape_errorE K G M r c :
  np.has_shape r c K -> np.has_shape (size M) (size M) G ->
  (0 < size M)%N -> (r != size M) || (c != size M) ->
  _calculate_thermal_evec eig K G M = Raise ValueError.
Proof.
move=> HK HG N_gt0 ne.
have sz_K : size K = r by case/andP: HK => /eqP.
have sz_G : size G = size M by case/andP: HG => /eqP.
rewrite /_calculate_thermal_evec /np.concatenate1 size_zeros size_identity.
rewrite eqxx /= sz_K sz_G.
case: eqP ne => [eq_r|//] /= ne_c; rewrite eq_r in HK sz_K.
have nc_a : np.ncols [seq p.1 ++ p.2
                     | p <- zip (np.zeros F (size M) (size M))
                                (np.identity F (size M))]
            = (size M + size M)%N.
  rewrite ncols_cat_rows ?size_zeros ?size_identity //.
  by rewrite zeros_mkmx identity_mkmx !ncols_mkmx.
have nc_b : np.ncols [seq p.1 ++ p.2 | p <- zip K G] = (c + size M)%N.
  by rewrite ncols_cat_rows ?sz_K ?sz_G // (ncols_shape HK) // (ncols_shape HG).
by rewrite /np.concatenate0 nc_a nc_b eqn_add2r eq_sym (negbTE ne_c).
Qed.

(** X15.  For [N x N] arrays [G] and [M], [N > 0], the eigensolver calls
    the eigenvalue routine exactly when [K] is [N x N] too; for any other
    shape of [K] one of the concatenations raises [ValueError] and the
    routine is not called. *)
Theorem calculate_thermal_evec_shapes K G M r c :
  np.has_shape r c K -> np.has_shape (size M) (size M) G ->
  np.has_shape (size M) (size M) M -> (0 < size M)%N ->
  _calculate_thermal_evec eig K G M
  = if (r == size M) && (c == size M)
    then eig (companion_left (size M) K G) (companion_right (size M) M)
    else Raise ValueError.
Proof.
move=> HK HG HM N_gt0; case: ifP => [/andP [/eqP eq_r /eqP eq_c]|ne].
  by rewrite eq_r eq_c in HK; rewrite calculate_thermal_evec_blocks.
by rewrite (thermal_evec_shape_errorE HK) // -negb_and ne.
Qed.

End Failures.

(** ** The flux integrator on every index *)

Section IndexOnly.

Lemma bind_index_only (T U : Type) (r : result T) (k : T -> result U) :
  index_only r -> (forall x, index_only (k x)) -> index_only (bind r k).
Proof. by case: r => [x _ Hk|e] //=; exact: Hk. Qed.

Lemma bind_raise_index (T U : Type) (r : result T) (k : T -> result U) :
  index_only r -> (forall x, k x = Raise IndexError) ->
  bind r k = Raise IndexError.
Proof. by case: r => [x _ Hk|[]] //=; exact: Hk. Qed.

Lemma for_index_only (A S : Type) (s : seq A) (body : A -> S -> result S) acc :
  (forall x a, index_only (body x a)) -> index_only (for_ s body acc).
Proof.
move=> Hb; elim: s acc => [|x s IH] acc //=.
by apply: bind_index_only.
Qed.

Lemma for_raise_index (A : eqType) (S : Type) (s : seq A)
    (body : A -> S -> result S) (x0 : A) acc :
  (forall x a, index_only (body x a)) ->
  x0 \in s -> (forall a, body x0 a = Raise IndexError) ->
  for_ s body acc = Raise IndexError.
Proof.
move=> Hb x0_s Hx0; elim: s acc x0_s => [|x s IH] acc //.
rewrite in_cons => /orP [/eqP <-|x0_s] /=; first by rewrite Hx0.
by apply: bind_raise_index => // a; apply: IH.
Qed.

Lemma for_head_raise (A S : Type) (x : A) (s : seq A)
    (body : A -> S -> result S) acc :
  body x acc = Raise IndexError -> for_ (x :: s) body acc = Raise IndexError.
Proof. by move=> /= ->. Qed.

Lemma getitem_index_only (T : Type) (s : seq T) i : index_only (getitem s i).
Proof. by rewrite /getitem; case: (ohead _). Qed.

Variable F : fieldType.
Implicit Types (A : seq (seq F)).

Lemma getcol_index_only A c : index_only (np.getcol A c).
Proof. by rewrite /np.getcol; case: ifP. Qed.

Lemma getitem2_index_only A r c : index_only (np.getitem2 A r c).
Proof.
by apply: bind_index_only => [|row]; exact: getitem_index_only.
Qed.

Lemma getcol_oob A r c j :
  np.has_shape r c A -> (c <= j)%N -> np.getcol A j = Raise IndexError.
Proof.
move=> shA le_j; rewrite /np.getcol ltnNge.
suff -> : (np.ncols A <= j)%N by [].
case: (posnP r) => [r0|r_gt0]; last by rewrite (ncols_shape shA).
by case/andP: shA; rewrite r0 => /eqP /size0nil ->.
Qed.

Lemma getitem2_oob A r c i j :
  np.has_shape r c A -> ~~ ((i < r)%N && (j < c)%N) ->
  np.getitem2 A i j = Raise IndexError.
Proof.
move=> shA; have sz_A : size A = r by case/andP: shA => /eqP.
rewrite /np.getitem2; case: (ltnP i r) => [lt_i /=|le_i _]; last first.
  by rewrite getitem_oob ?sz_A.
rewrite -leqNgt => le_j; rewrite (getitem_nth [::]) ?sz_A //=.
by rewrite getitem_oob // (size_row_shape shA).
Qed.

Lemma range_overflow base dim n :
  (0 < dim)%N -> (n < base + dim)%N ->
  exists2 x, (x < dim)%N & (n <= base + x)%N.
Proof.
move=> dim_gt0 lt_n; exists (n - base)%N; first by rewrite ltn_psubLR.
by rewrite -leq_subLR.
Qed.

Lemma range_head dim : (0 < dim)%N -> range dim = 0%N :: iota 1 dim.-1.
Proof. by case: dim. Qed.

End IndexOnly.

Section PowerTotal.
Variable F : fieldType.
Implicit Types (val : seq F) (vec coeff K : seq (seq F)).

Local Ltac index_only_auto :=
  repeat first
    [ exact: getitem_index_only | exact: getcol_index_only
    | exact: getitem2_index_only | exact: I
    | apply: for_index_only | apply: bind_index_only
    | progress cbv zeta | move=> ? ].

Local Ltac skip_read lem := apply: bind_raise_index; [exact: lem | move=> ?].

Lemma calculate_power_totalE i j dim val vec coeff K dl :
  flux_shapes val vec coeff K dl ->
  _calculate_power i j dim val vec coeff K dl
  = if flux_in_bounds i j dim (size val) (nth [::] dl 1)
    then Ok (flux_formula i j dim val vec coeff K (nth [::] dl 1))
    else Raise IndexError.
Proof.
case/and5P => /eqP Hn Hvec Hco HK Hdl; rewrite /flux_in_bounds.
have sz_vec : size vec = size val by case/andP: Hvec => /eqP.
have [->|dim_gt0] := posnP dim.
  by rewrite /_calculate_power (getitem_nth [::]) //= /flux_formula big_geq.
rewrite /=.
have mem0 : 0%N \in range dim by rewrite mem_range.
have Eraise := range_head dim_gt0.
case: (leqP (3 * i + dim) (size val)) => [Hi|Hi] /=; last first.
  have [x0 lt_x0 le_n] := range_overflow dim_gt0 Hi.
  rewrite /_calculate_power (getitem_nth [::]) //=.
  apply: (@for_raise_index _ _ _ _ x0) => [idim a||a]; rewrite ?mem_range //.
    by index_only_auto.
  by rewrite Eraise /= getitem_oob ?sz_vec.
have lt_i0 : (3 * i + 0 < size val)%N by exact: idx_lt Hi.
case: (leqP (3 * j + dim) (size val)) => [Hj|Hj] /=; last first.
  have [y0 lt_y0 le_n] := range_overflow dim_gt0 Hj.
  rewrite /_calculate_power (getitem_nth [::]) //=.
  apply: (@for_raise_index _ _ _ _ 0%N) => [idim a||a] //.
    by index_only_auto.
  apply: (@for_raise_index _ _ _ _ y0) => [jdim b||b]; rewrite ?mem_range //.
    by index_only_auto.
  by rewrite (getitem_nth [::]) ?sz_vec //= getitem_oob ?sz_vec.
have lt_j0 : (3 * j + 0 < size val)%N by exact: idx_lt Hj.
case: eqP => [d_nil|/eqP d_ne] /=.
  rewrite /_calculate_power (getitem_nth [::]) //= d_nil /flux_formula.
  apply: for_range_sum0 => idim a lt_idim.
  apply: for_range_sum => jdim b lt_jdim.
  rewrite !(getitem_nth [::]) ?sz_vec ?(idx_lt _ Hi) ?(idx_lt _ Hj) //=.
  by rewrite big_nil addr0.
case: (leqP (3 * i + dim) (size val %/ 2)) => [HiN|HiN] /=; last first.
  have [x0 lt_x0 le_N] := range_overflow dim_gt0 HiN.
  rewrite /_calculate_power (getitem_nth [::]) //=.
  apply: (@for_raise_index _ _ _ _ x0) => [idim a||a]; rewrite ?mem_range //.
    by index_only_auto.
  rewrite Eraise; apply: for_head_raise.
  skip_read getitem_index_only; skip_read getitem_index_only.
  case: (nth [::] dl 1) d_ne => [|d ds] // _; apply: for_head_raise.
  do 3![skip_read getcol_index_only].
  by rewrite (getitem2_oob HK) // ltnNge le_N.
case: (leqP (3 * j + dim) (size val %/ 2)) => [HjN|HjN] /=; last first.
  have [y0 lt_y0 le_N] := range_overflow dim_gt0 HjN.
  rewrite /_calculate_power (getitem_nth [::]) //=.
  apply: (@for_raise_index _ _ _ _ 0%N) => [idim a||a] //.
    by index_only_auto.
  apply: (@for_raise_index _ _ _ _ y0) => [jdim b||b]; rewrite ?mem_range //.
    by index_only_auto.
  skip_read getitem_index_only; skip_read getitem_index_only.
  case: (nth [::] dl 1) d_ne => [|d ds] // _; apply: for_head_raise.
  do 3![skip_read getcol_index_only].
  by rewrite (getitem2_oob HK) // [(3 * j + y0 < _)%N]ltnNge le_N andbF.
case: (boolP (all _ _)) => [Hall|/allPn [d0 d0_in]].
  rewrite calculate_power_closed //.
  by apply/and5P; split=> //; [apply/eqP | apply/and4P; split].
rewrite -ltnNge addnS ltnS => le_N.
rewrite /_calculate_power (getitem_nth [::]) //=.
apply: (@for_raise_index _ _ _ _ 0%N) => [idim a||a] //.
  by index_only_auto.
apply: (@for_raise_index _ _ _ _ 0%N) => [jdim b||b] //.
  by index_only_auto.
skip_read getitem_index_only; skip_read getitem_index_only.
apply: (@for_raise_index _ _ _ _ d0) => [d c||c] //.
  by index_only_auto.
do 2![skip_read getcol_index_only].
by rewrite (getcol_oob Hco).
Qed.

(** X16.  On arrays of the shapes [kappa] builds, [_calculate_power]
    returns the flux formula exactly when every index it reads lies inside
    (the rows [3i + idim] and [3j + jdim] of the eigenvectors and, when the
    second group drives an atom, the Hessian entries and the three
    coefficient columns of each driven atom); in every other case it raises
    [IndexError]. *)
Theorem calculate_power_total i j dim val vec coeff K driverList :
  flux_shapes val vec coeff K driverList ->
  _calculate_power i j dim val vec coeff K driverList
  = if flux_in_bounds i j dim (size val) (nth [::] driverList 1)
    then Ok (flux_formula i j dim val vec coeff K (nth [::] driverList 1))
    else Raise IndexError.
Proof. exact: calculate_power_totalE. Qed.

End PowerTotal.

Lemma kappa_early_errors_witness :
  let drivers := [:: [:: 0%N]; [:: 1%N]] in
  [/\ index_array drivers,
      machine_int (size atom_k %/ size atom_m * size atom_m)
    & kappa no_eig no_solve atom_m atom_k drivers [::] atom_gamma
      = Raise IndexError].
Proof.
move=> drivers.
have ints : index_array drivers by [].
have fits : machine_int (size atom_k %/ size atom_m * size atom_m) by [].
split; [exact: ints | exact: fits | ].
by rewrite (kappa_early_errors no_eig no_solve [::] atom_gamma ints fits).
Defined.

Lemma calculate_thermal_evec_shapes_witness :
  let K := np.zeros rat 3 2 in
  [/\ np.has_shape 3 2 K, np.has_shape (size atom_mass) (size atom_mass) atom_g,
      np.has_shape (size atom_mass) (size atom_mass) atom_mass,
      (0 < size atom_mass)%N
    & _calculate_thermal_evec atom_eig K atom_g atom_mass = Raise ValueError].
Proof.
move=> K.
have HK : np.has_shape 3 2 K by [].
have HG : np.has_shape (size atom_mass) (size atom_mass) atom_g by [].
have HM : np.has_shape (size atom_mass) (size atom_mass) atom_mass by [].
have gt0 : (0 < size atom_mass)%N by [].
split; [exact: HK | exact: HG | exact: HM | exact: gt0 | ].
by rewrite (calculate_thermal_evec_shapes atom_eig HK HG HM gt0).
Defined.

Lemma calculate_power_total_witness :
  flux_shapes pair_val pair_vec pair_coeff pair_k pair_drivers
  /\ _calculate_power 5 1 3 pair_val pair_vec pair_coeff pair_k pair_drivers
     = Raise IndexError.
Proof.
have sh : flux_shapes pair_val pair_vec pair_coeff pair_k pair_drivers.
  by vm_compute.
split; first exact: sh.
rewrite (calculate_power_total 5 1 3 sh).
have -> : flux_in_bounds 5 1 3 (size pair_val) (nth [::] pair_drivers 1)
          = false by vm_compute.
by [].
Defined.

(** ** Three degrees of freedom and any number of them *)

Section Dimensions.
Variable F : fieldType.
Implicit Types (val : seq F) (vec coeff K : seq (seq F)).

(** X17.  For three degrees of freedom per atom the damping matrix
    builder returns the matrix of the specification: [gamma] on the
    diagonal at the three degrees of freedom of every driven atom, zero
    elsewhere, provided that the driver groups make an array of integers
    (none of them empty) and the driven atoms are atoms of the system. *)
Theorem calculate_gamma_mat_three_dof (gamma : F) N (drivers : seq (seq nat)) :
  machine_int (3 * N) -> index_groups drivers ->
  drivers != [::] -> all (fun d => d < N)%N (flatten drivers) ->
  _calculate_gamma_mat 3 N gamma drivers = Ok (gamma_mat_spec 3 N gamma drivers).
Proof. by move=> _ _; exact: calculate_gamma_mat_dim3. Qed.

(** X18.  For any number [dim] of degrees of freedom, a well-formed input
    and eigenvalues of which no two sum to zero, the scalar loops return
    what [_calculate_power] returns, whatever numpy's error state. *)
Theorem calculate_power_loop_any_dim fp i j dim val vec coeff K driverList :
  no_resonance val -> wf_flux i j dim val vec coeff K driverList ->
  _calculate_power_loop fp i j dim val vec coeff K driverList
  = (p <- _calculate_power i j dim val vec coeff K driverList ;; Ok (Some p)).
Proof.
move=> /no_resonanceP Hval wf.
by rewrite calculate_power_loop_closed // calculate_power_closed.
Qed.

End Dimensions.

Lemma calculate_gamma_mat_three_dof_witness :
  let drivers := [:: [:: 0%N; 2%N]; [:: 1%N; 2%N]] in
  [/\ machine_int (3 * 4), index_groups drivers, drivers != [::],
      all (fun d => d < 4)%N (flatten drivers)
    & _calculate_gamma_mat 3 4 atom_gamma drivers
      = Ok (gamma_mat_spec 3 4 atom_gamma drivers)].
Proof.
move=> drivers.
have fits : machine_int (3 * 4) by [].
have ints : index_groups drivers by [].
have ne : drivers != [::] by [].
have inN : all (fun d => d < 4)%N (flatten drivers) by [].
split; [exact: fits | exact: ints | exact: ne | exact: inN | ].
exact: (calculate_gamma_mat_three_dof atom_gamma fits ints ne inN).
Defined.

Lemma calculate_power_loop_any_dim_witness :
  [/\ no_resonance pair_val,
      wf_flux 0 1 2 pair_val pair_vec pair_coeff pair_k pair_drivers
    & _calculate_power_loop false 0 1 2 pair_val pair_vec pair_coeff pair_k
        pair_drivers
      = (p <- _calculate_power 0 1 2 pair_val pair_vec pair_coeff pair_k
                pair_drivers ;;
         Ok (Some p))].
Proof.
have nr : no_resonance pair_val by vm_compute.
have wf : wf_flux 0 1 2 pair_val pair_vec pair_coeff pair_k pair_drivers.
  by vm_compute.
split; [exact: nr | exact: wf | ].
exact: (calculate_power_loop_any_dim false nr wf).
Defined.
